(** * nixos_secrets: a shallow embedding of [nixos_secrets.py]

    The development follows the layout of the Python module: exceptions,
    helpers, [ListPackets], [Secret], [KeyGenerator], [KeyManager].  The
    file system and the GnuPG engine are explicit: the file system is a
    finite map from path strings to files, the engine is a record of
    functions (the global [gpg] handle of the module). *)

From Stdlib Require Import ZArith Ascii String.
From Stdlib.Strings Require Import Byte.
From stdpp Require Import base option list gmap sets strings fin_maps.

Local Open Scope string_scope.
Local Open Scope Z_scope.

(** ** Exceptions and results *)

Module Py.

(** The exceptions the module can raise or let through.  [SecretError] and
    [SecretKeyError] are the two classes the module declares; the others
    are the built-in exceptions of the interpreter and of [os]. *)
Inductive exn : Type :=
  | IndexError
  | TypeError (msg : string)
  | ValueError (msg : string)
  | KeyError (key : string)
  | FileNotFoundError (path : string)
  | FileExistsError
  | SecretKeyError (msg : string)
  | SecretError_msg (msg : string).

(** [SecretError.__init__(path, message)] formats [f"{path}: {message}"]. *)
Definition SecretError (path message : string) : exn :=
  SecretError_msg (path ++ ": " ++ message).

Inductive result (A : Type) : Type :=
  | Ok (a : A)
  | Raise (e : exn).
Arguments Ok {A} a.
Arguments Raise {A} e.

Definition bind {A B} (r : result A) (k : A → result B) : result B :=
  match r with
  | Ok a => k a
  | Raise e => Raise e
  end.

End Py.
Import Py.

(** [result] is a monad; the instances give it stdpp's [x ← m; k]. *)
#[global] Instance result_ret : MRet result := @Ok.
#[global] Instance result_bind : MBind result := λ A B k r, Py.bind r k.

#[global] Instance exn_eq_dec : EqDecision exn.
Proof. solve_decision. Defined.

#[global] Instance result_eq_dec {A} `{EqDecision A} : EqDecision (result A).
Proof. solve_decision. Defined.

(** ** Bytes *)

Abbreviation bytes := (list byte).

#[global] Instance byte_eq_dec : EqDecision byte := Byte.byte_eq_dec.

(** [b[i]] on a [bytes] object: the integer value of the byte, or
    [IndexError] when [i] is out of range. *)
Definition getitem (b : bytes) (i : nat) : result Z :=
  match b !! i with
  | Some x => Ok (Z.of_N (Byte.to_N x))
  | None => Raise IndexError
  end.

(** ** The packet header heuristic of [Secret._detect_encryption]

    The body of the [try] block, on the header already read.  It either
    returns through one of the [return False] statements, falls through to
    the [return True] after the block ([Ok true]), or raises the
    [IndexError] of a subscript. *)
Definition check_header (header : bytes) : result bool :=
  h0 ← getitem header 0;
  if Z.land h0 0x80 =? 0 then Ok false
  else if Z.land h0 0x40 =? 0 then
    (* Old packet format *)
    if negb (Z.shiftr (Z.land h0 0x3C) 2 =? 1) then Ok false
    else
      let length_type := Z.land h0 0x3 in
      let body_offset : nat :=
        if length_type =? 0 then 2%nat
        else if length_type =? 1 then 3%nat
        else if length_type =? 2 then 5%nat
        else 1%nat in
      v ← getitem header body_offset;
      if negb (v =? 3) then Ok false else Ok true
  else
    (* New packet format *)
    if negb (Z.land h0 0x3F =? 1) then Ok false else Ok true.

(** [try: ... except IndexError: return False], then [return True]. *)
Definition classify_header (header : bytes) : result bool :=
  match check_header header with
  | Raise IndexError => Ok false
  | r => r
  end.

(** ** Strings: the fragment of [str] the module uses *)

(** A [string] stands for a [str] whose characters are code points below
    256, one character per code point. *)

(** [c.isspace()], the whitespace of [str.split] and [str.strip]: tab, line
    feed, vertical tab, form feed, carriage return, the four separators
    [0x1c]-[0x1f], space, next line [0x85] and no-break space [0xa0]. *)
Definition is_space (c : ascii) : bool :=
  let n := N_of_ascii c in
  ((9 <=? n) && (n <=? 13) || (28 <=? n) && (n <=? 32)
   || (n =? 133) || (n =? 160))%N.

Fixpoint split_from (word : string) (s : string) : list string :=
  match s with
  | EmptyString => if decide (word = "") then [] else [word]
  | String c s' =>
      if is_space c then
        (if decide (word = "") then split_from "" s'
         else word :: split_from "" s')
      else split_from (word ++ String c "") s'
  end.

(** [s.split()] with no argument: the maximal runs of non-whitespace. *)
Definition str_split (s : string) : list string := split_from "" s.

Fixpoint lstrip (s : string) : string :=
  match s with
  | String c s' => if is_space c then lstrip s' else s
  | EmptyString => ""
  end.

(** [s.strip()]. *)
Definition str_strip (s : string) : string :=
  String.rev (lstrip (String.rev (lstrip s))).

(** [s.lower()]: [A]-[Z] and the capital letters [0xc0]-[0xde] other than
    the multiplication sign [0xd7] are moved up by 32; every other character
    below 256 is its own lower case, the micro sign, the sharp s and the y
    with diaeresis included. *)
Definition ascii_lower (c : ascii) : ascii :=
  let n := N_of_ascii c in
  if ((65 <=? n) && (n <=? 90)
      || (192 <=? n) && (n <=? 222) && negb (n =? 215))%N
  then ascii_of_N (n + 32) else c.

Fixpoint str_lower (s : string) : string :=
  match s with
  | EmptyString => ""
  | String c s' => String (ascii_lower c) (str_lower s')
  end.

(** ** Paths: [os.path.split] and [os.path.join] on POSIX *)

(** [rsplit_slash s] cuts [s] after its last ['/']: the pair [(s[:i], s[i:])]
    with [i = s.rfind('/') + 1]. *)
Fixpoint rsplit_slash (s : string) : string * string :=
  match s with
  | EmptyString => ("", "")
  | String c s' =>
      let '(h, t) := rsplit_slash s' in
      if decide (h = "") then
        if Ascii.eqb c "/" then (String c "", t) else ("", String c t)
      else (String c h, t)
  end.

Fixpoint all_slashes (s : string) : bool :=
  match s with
  | EmptyString => true
  | String c s' => Ascii.eqb c "/" && all_slashes s'
  end.

Fixpoint rstrip_slash_rev (r : string) : string :=
  match r with
  | String c r' => if Ascii.eqb c "/" then rstrip_slash_rev r' else r
  | EmptyString => ""
  end.

Definition os_path_split (p : string) : string * string :=
  let '(head, tail) := rsplit_slash p in
  if negb (bool_decide (head = "")) && negb (all_slashes head)
  then (String.rev (rstrip_slash_rev (String.rev head)), tail)
  else (head, tail).

Definition ends_with_slash (a : string) : bool :=
  match String.rev a with
  | String c _ => Ascii.eqb c "/"
  | EmptyString => false
  end.

Definition os_path_join (a b : string) : string :=
  match b with
  | String "/" _ => b
  | _ => if bool_decide (a = "") || ends_with_slash a then a ++ b
         else a ++ "/" ++ b
  end.

(** ** The file system and the process *)

(** A regular file: its bytes and its permission bits. *)
Record file : Type := File { content : bytes; mode : Z }.

(** What the module does to the outside once a temporary file exists: the
    engine is asked to encrypt or decrypt into [output], and the directory
    entry is changed with [os.replace] or [os.remove].  The world keeps
    these events, most recent first. *)
Inductive event : Type :=
  | EncryptFile (output : string) (recipients : gset string)
  | DecryptFile (output : string)
  | Replace (src dst : string)
  | Remove (path : string).

(** What the module sees of its process: the files by path, the umask, the
    random components [tempfile] will propose next, and the events so
    far. *)
Record world : Type := World {
  files : gmap string file;
  umask : Z;
  temp_names : list string;
  trace : list event
}.

#[global] Instance file_eq_dec : EqDecision file.
Proof. solve_decision. Defined.
#[global] Instance event_eq_dec : EqDecision event.
Proof. solve_decision. Defined.
#[global] Instance world_eq_dec : EqDecision world.
Proof. solve_decision. Defined.

Definition set_files (fs : gmap string file) (w : world) : world :=
  World fs (umask w) (temp_names w) (trace w).

Definition log_event (c : event) (w : world) : world :=
  World (files w) (umask w) (temp_names w) (c :: trace w).

(** [get_umask()]: reads the umask by setting it to 0 and back, so the
    process is left as it was. *)
Definition get_umask (w : world) : Z := umask w.

(** [open(path, 'rb')]: the file at [path], or the error of a path that
    cannot be opened. *)
Definition open_rb (w : world) (path : string) : result file :=
  match files w !! path with
  | Some f => Ok f
  | None => Raise (FileNotFoundError path)
  end.

(** [file.read(n)]. *)
Definition read (f : file) (n : nat) : bytes := take n (content f).

(** [os.replace(src, dst)]. *)
Definition os_replace (src dst : string) (w : world) : result unit * world :=
  match files w !! src with
  | Some f =>
      (Ok (), log_event (Replace src dst)
                (set_files (<[dst := f]> (delete src (files w))) w))
  | None => (Raise (FileNotFoundError src), w)
  end.

(** [os.remove(path)]. *)
Definition os_remove (path : string) (w : world) : result unit * world :=
  match files w !! path with
  | Some _ =>
      (Ok (), log_event (Remove path) (set_files (delete path (files w)) w))
  | None => (Raise (FileNotFoundError path), w)
  end.

(** [os.fchmod(fd, mode)] on the open file named [path]. *)
Definition os_fchmod (path : string) (m : Z) (w : world) : world :=
  set_files (alter (λ f, File (content f) m) path (files w)) w.

(** [tempfile.NamedTemporaryFile(dir=dir, prefix=prefix, delete=False)]:
    the first proposed name [join(dir, prefix + random)] that is not taken
    is created exclusively, empty and with mode [0o600]; when every
    proposal is taken the call gives up with [FileExistsError]. *)
Fixpoint mkstemp_from (fs : gmap string file) (dir prefix : string)
    (names : list string) : option (string * list string) :=
  match names with
  | [] => None
  | n :: names' =>
      let name := os_path_join dir (prefix ++ n) in
      match fs !! name with
      | None => Some (name, names')
      | Some _ => mkstemp_from fs dir prefix names'
      end
  end.

Definition NamedTemporaryFile (dir prefix : string) (w : world)
    : result string * world :=
  match mkstemp_from (files w) dir prefix (temp_names w) with
  | Some (name, rest) =>
      (Ok name, World (<[name := File [] 0x180]> (files w)) (umask w) rest
                  (trace w))
  | None => (Raise FileExistsError, World (files w) (umask w) [] (trace w))
  end.

(** ** The GnuPG engine *)

(** [gnupg.Crypt], the result of [encrypt_file] and [decrypt_file]: the
    [ok] flag, the status text, and the bytes the engine left in the file
    it was given as [output]. *)
Record Crypt : Type := { ok : bool; status : string; output : bytes }.

(** An entry of [gnupg.ListKeys]: the master key's fingerprint (the only
    item the module reads) and its long key id. *)
Record KeyInfo : Type := { fingerprint : string; keyid : string }.

(** [gnupg.GenKey]: truthy exactly when a fingerprint was reported, and
    printed as that fingerprint. *)
Record GenKey : Type := { gk_fingerprint : option string }.

Definition GenKey_bool (k : GenKey) : bool :=
  match gk_fingerprint k with
  | Some f => negb (bool_decide (f = ""))
  | None => false
  end.

Definition GenKey_str (k : GenKey) : string :=
  default "" (gk_fingerprint k).

(** The keyword arguments [generate] passes to [gpg.gen_key_input]. *)
Record GenKeyInput : Type := {
  key_type : option string;
  key_length : option Z;
  name_real : string;
  name_email : string;
  passphrase : string;
  expire_date : Z
}.

(** The module-level handle [gpg = gnupg.GPG()], as the capabilities the
    module calls on it.  [list_packets] is the status stream that
    [gpg._handle_io] feeds, line by line, to [ListPackets.handle_status].
    Every call answers: a failure is reported in the result ([ok], an empty
    key list, a falsy key), not raised.  [encrypt_file] and [decrypt_file]
    read the bytes of the open input file and write only the file named as
    their output; the keyring is the engine's own and stays as it is while
    secrets are processed. *)
Record GPG : Type := {
  list_keys : list string → list KeyInfo;
  encrypt_file : bytes → gset string → Crypt;
  decrypt_file : bytes → Crypt;
  list_packets : bytes → list (string * string);
  gen_key_input : GenKeyInput → string;
  gen_key : string → GenKey;
  export_keys : string → string
}.

(** ** [class ListPackets] *)

Record ListPackets : Type := {
  need_passphrase : option bool;
  need_passphrase_sym : option bool;
  userid_hint : option (list string);
  encrypted_to : list string
}.

(** [ListPackets.__init__]. *)
Definition ListPackets_init : ListPackets :=
  {| need_passphrase := None; need_passphrase_sym := None;
     userid_hint := None; encrypted_to := [] |}.

(** [ListPackets.handle_status(key, value)].  The unpacking
    [key, _, _ = value.split()] needs exactly three fields. *)
Definition handle_status (self : ListPackets) (key value : string)
    : result ListPackets :=
  if bool_decide (key = "ENC_TO") then
    match str_split value with
    | [k; _; _] =>
        Ok {| need_passphrase := need_passphrase self;
              need_passphrase_sym := need_passphrase_sym self;
              userid_hint := userid_hint self;
              encrypted_to := encrypted_to self ++ [k] |}
    | _ => Raise (ValueError "unpack")
    end
  else if bool_decide (key = "NEED_PASSPHRASE")
          || bool_decide (key = "MISSING_PASSPHRASE") then
    Ok {| need_passphrase := Some true;
          need_passphrase_sym := need_passphrase_sym self;
          userid_hint := userid_hint self;
          encrypted_to := encrypted_to self |}
  else if bool_decide (key = "NEED_PASSPHRASE_SYM") then
    Ok {| need_passphrase := need_passphrase self;
          need_passphrase_sym := Some true;
          userid_hint := userid_hint self;
          encrypted_to := encrypted_to self |}
  else if bool_decide (key = "USERID_HINT") then
    Ok {| need_passphrase := need_passphrase self;
          need_passphrase_sym := need_passphrase_sym self;
          userid_hint := Some (str_split (str_strip value));
          encrypted_to := encrypted_to self |}
  else Ok self.

(** The engine's status lines, handled in order. *)
Fixpoint handle_all (self : ListPackets) (lines : list (string * string))
    : result ListPackets :=
  match lines with
  | [] => Ok self
  | (key, value) :: rest =>
      self' ← handle_status self key value; handle_all self' rest
  end.

(** ** [class Secret] *)

Record Secret : Type := {
  _path : string;
  _keys : gset string;
  _encrypted : option bool
}.

#[global] Instance Secret_eq_dec : EqDecision Secret.
Proof. solve_decision. Defined.

(** [Secret.__init__(path, keys)]. *)
Definition Secret_init (path : string) (keys : gset string) : Secret :=
  {| _path := path; _keys := keys; _encrypted := None |}.

(** A method of [Secret] runs on the object and the world, changes both,
    and returns or raises; what it changed before raising stays changed. *)
Definition M (A : Type) : Type := Secret → world → result A * Secret * world.

Definition bindM {A B} (m : M A) (k : A → M B) : M B := λ self w,
  match m self w with
  | (Ok a, self', w') => k a self' w'
  | (Raise e, self', w') => (Raise e, self', w')
  end.

#[global] Instance M_ret : MRet M := λ A a self w, (Ok a, self, w).
#[global] Instance M_bind : MBind M := λ A B k m, bindM m k.

Notation "'let*' x ':=' m 'in' k" := (bindM m (λ x, k))
  (at level 10, x name, m at level 100, k at level 200,
   format "'let*'  x  ':='  m  'in' '//' k").

Definition raise {A} (e : exn) : M A := λ self w, (Raise e, self, w).
Definition get_self : M Secret := λ self w, (Ok self, self, w).
Definition get_world : M world := λ self w, (Ok w, self, w).
Definition put_world (w' : world) : M unit := λ self _, (Ok (), self, w').
Definition with_encrypted (b : option bool) (self : Secret) : Secret :=
  {| _path := _path self; _keys := _keys self; _encrypted := b |}.
Definition set_encrypted (b : option bool) : M unit := λ self w,
  (Ok (), with_encrypted b self, w).
Definition lift {A} (r : result A) : M A := λ self w, (r, self, w).
Definition sys {A} (f : world → result A * world) : M A := λ self w,
  let '(r, w') := f w in (r, self, w').
Definition pass : M unit := mret ().

(** 0o666 *)
Definition rw_all : Z := 0x1B6.

Section WithEngine.

Variable gpg : GPG.

(** [Secret._detect_encryption]: the file is opened and its first 32 bytes
    read outside the [try] block. *)
Definition _detect_encryption : M bool :=
  let* self := get_self in
  let* w := get_world in
  let* file := lift (open_rb w (_path self)) in
  let header := read file 32 in
  lift (classify_header header).

(** [Secret._list_packets]. *)
Definition _list_packets : M ListPackets :=
  let* self := get_self in
  let* w := get_world in
  let* file := lift (open_rb w (_path self)) in
  lift (handle_all ListPackets_init (list_packets gpg (content file))).

(** [Secret._get_master_keys(keys)]:
    [set(map(itemgetter('fingerprint'), gpg.list_keys(keys=keys)))]. *)
Definition _get_master_keys (keys : list string) : result (gset string) :=
  let key_list := list_keys gpg keys in
  Ok (list_to_set (fingerprint <$> key_list)).

(** The property [Secret.encrypted]. *)
Definition encrypted : M bool :=
  let* self := get_self in
  match _encrypted self with
  | Some b => mret b
  | None =>
      let* b := _detect_encryption in
      set_encrypted (Some b);;
      mret b
  end.

(** The engine writes its output into the file named [output]. *)
Definition engine_output (name : string) (data : bytes) (w : world) : world :=
  set_files (alter (λ f, File data (mode f)) name (files w)) w.

(** [Secret.encrypt]. *)
Definition encrypt : M unit :=
  let* enc := encrypted in
  if enc then pass (* warning: already encrypted *)
  else
    let* self := get_self in
    let '(file_dir, file_name) := os_path_split (_path self) in
    let* w := get_world in
    let* file := lift (open_rb w (_path self)) in
    let* enc_temp := sys (NamedTemporaryFile file_dir file_name) in
    let result := encrypt_file gpg (content file) (_keys self) in
    let* w := get_world in
    put_world (engine_output enc_temp (output result)
                 (log_event (EncryptFile enc_temp (_keys self)) w));;
    (if ok result then
       let* w := get_world in
       put_world (os_fchmod enc_temp (Z.land rw_all (Z.lnot (get_umask w))) w)
     else pass);;
    if ok result then
      sys (os_replace enc_temp (_path self));;
      set_encrypted (Some true)
    else
      sys (os_remove enc_temp);;
      raise (SecretError (_path self) (status result)).

(** [Secret.decrypt]. *)
Definition decrypt : M unit :=
  let* self := get_self in
  let '(file_dir, file_name) := os_path_split (_path self) in
  let* w := get_world in
  let* file := lift (open_rb w (_path self)) in
  let* dec_temp := sys (NamedTemporaryFile file_dir file_name) in
  let result := decrypt_file gpg (content file) in
  let* w := get_world in
  put_world (engine_output dec_temp (output result)
               (log_event (DecryptFile dec_temp) w));;
  (if ok result then
     let* w := get_world in
     put_world (os_fchmod dec_temp (Z.land rw_all (Z.lnot (get_umask w))) w)
   else pass);;
  if ok result then
    sys (os_replace dec_temp (_path self));;
    set_encrypted (Some false)
  else
    sys (os_remove dec_temp);;
    raise (SecretError (_path self) (status result)).

(** [Secret.update_keys]. *)
Definition update_keys : M unit :=
  let* enc := encrypted in
  let* current_keys :=
    (if enc then
       let* packets := _list_packets in
       lift (_get_master_keys (encrypted_to packets))
     else mret (∅ : gset string)) in
  let* self := get_self in
  if bool_decide (current_keys ≠ _keys self) then
    let* enc := encrypted in
    (if enc then decrypt else pass);;
    encrypt
  else pass (* keys are up to date *).

End WithEngine.

(** ** [class KeyGenerator] *)

Record KeyGenerator : Type := {
  _key_type : option string;
  _key_length : option Z;
  _domain : string
}.

(** The [generate] attribute set of the configuration: [keyType] and
    [keyLength] may be absent (outer [None]) or null, [domain] may be
    absent. *)
Record GenerateConfig : Type := {
  cfg_keyType : option (option string);
  cfg_keyLength : option (option Z);
  cfg_domain : option string
}.

(** [KeyGenerator.__init__(config)]: [config.get] with its defaults, and
    the subscript [config['domain']]. *)
Definition KeyGenerator_init (config : GenerateConfig) : result KeyGenerator :=
  let key_type := default (Some "RSA") (cfg_keyType config) in
  let key_length := default (Some 4096) (cfg_keyLength config) in
  match cfg_domain config with
  | Some d =>
      Ok {| _key_type := key_type; _key_length := key_length; _domain := d |}
  | None => Raise (KeyError "domain")
  end.

Definition newline : string := String "010" "".

(** [open(path, 'w')] followed by [write(data)]: a new file gets the mode
    [0o666 & ~umask], an existing one is truncated and keeps its mode. *)
Definition write_text (path : string) (data : string) (w : world) : world :=
  let m := match files w !! path with
           | Some f => mode f
           | None => Z.land rw_all (Z.lnot (umask w))
           end in
  set_files (<[path := File (list_byte_of_string data) m]> (files w)) w.

Section KeyGeneration.

Variable gpg : GPG.

(** The request [generate] builds: the keyword arguments of
    [gpg.gen_key_input]. *)
Definition generate_request (self : KeyGenerator) (name : string)
    : GenKeyInput :=
  {| key_type := _key_type self;
     key_length := _key_length self;
     name_real := name;
     name_email := str_lower name ++ "@" ++ _domain self;
     passphrase := "";
     expire_date := 0 |}.

Definition generate_key_input (self : KeyGenerator) (name : string) : string :=
  "%no-protection" ++ newline ++ gen_key_input gpg (generate_request self name).

(** [KeyGenerator.generate(name, key_path)].  The last call,
    [gpg.delete_keys], changes only the engine's keyring and its result is
    dropped. *)
Definition generate (self : KeyGenerator) (name : string)
    (key_path : option string) (w : world) : result GenKey * world :=
  let key_path :=
    match key_path with
    | Some p => if bool_decide (p = "") then name ++ ".asc" else p
    | None => name ++ ".asc"
    end in
  let key_input := generate_key_input self name in
  let key := gen_key gpg key_input in
  if negb (GenKey_bool key) then
    (Raise (SecretKeyError ("Failed to generate key: " ++ GenKey_str key)), w)
  else
    let key_data := export_keys gpg (GenKey_str key) in
    (Ok key, write_text key_path key_data w).

End KeyGeneration.

(** ** [class KeyManager] *)

(** A value of the [keys] attribute set: one key id or a list of them. *)
Inductive key_config : Type :=
  | KeyId (s : string)
  | KeyIds (l : list string).

(** [wrap_string_list]. *)
Definition wrap_string_list (iter_or_str : key_config) : list string :=
  match iter_or_str with
  | KeyId s => [s]
  | KeyIds l => l
  end.

(** [set.union] applied to the unpacked values: the unbound method needs
    its receiver, so no argument at all is a [TypeError]. *)
Definition set_union_star (args : list (gset string)) : result (gset string) :=
  match args with
  | [] => Raise (TypeError "unbound method set.union() needs an argument")
  | s :: rest => Ok (s ∪ ⋃ rest)
  end.

(** The dict comprehension of [KeyManager.__init__]. *)
Definition declared_aliases (config : gmap string key_config)
    : gmap string (gset string) :=
  (λ key_config, list_to_set (wrap_string_list key_config)) <$> config.

(** [KeyManager.__init__(config)]: the resulting [_aliases]. *)
Definition KeyManager_init (config : gmap string key_config)
    : result (gmap string (gset string)) :=
  let _aliases := declared_aliases config in
  all ← set_union_star (map_to_list _aliases).*2;
  Ok (<["all" := all]> _aliases).

(** [KeyManager.lookup_alias(alias)]. *)
Definition lookup_alias (_aliases : gmap string (gset string))
    (alias : string) : result (gset string) :=
  match _aliases !! alias with
  | Some s => Ok s
  | None => Raise (SecretKeyError ("unknown key alias: " ++ alias))
  end.

(** ** A small engine over a keyring

    [keyring_gpg ring] is an instance of the engine interface on which the
    model can be run: keys are found by fingerprint or by long key id, a
    ciphertext is one session-key packet per recipient (old format, tag 1,
    one-octet length, version 3, then the recipient's position in the
    keyring) followed by a data packet holding the plaintext, and the
    packet listing reports one [ENC_TO] line per session-key packet. *)

Module Keyring.

Definition key_matches (id : string) (k : KeyInfo) : bool :=
  bool_decide (id = fingerprint k) || bool_decide (id = keyid k).

(** With ids the listing is restricted to the keys one of them names;
    without any the whole keyring is listed. *)
Definition list_keys (ring : list KeyInfo) (ids : list string) : list KeyInfo :=
  match ids with
  | [] => ring
  | _ => List.filter (λ k, existsb (λ id, key_matches id k) ids) ring
  end.

(** The position of the first key an id names. *)
Fixpoint find_key (ring : list KeyInfo) (id : string) : option nat :=
  match ring with
  | [] => None
  | k :: ring' => if key_matches id k then Some 0%nat
                  else S <$> find_key ring' id
  end.

Definition byte_of_nat (n : nat) : byte := default x00 (Byte.of_nat n).

Definition session_key_packet (i : nat) : bytes := [x84; x02; x03; byte_of_nat i].

Definition encrypt_file (ring : list KeyInfo) (plain : bytes)
    (recipients : gset string) : Crypt :=
  match mapM (find_key ring) (elements recipients) with
  | Some (i :: rest) =>
      {| ok := true; status := "encryption ok";
         output := mjoin (session_key_packet <$> remove_dups (i :: rest))
                     ++ xd2 :: plain |}
  | _ => {| ok := false; status := "invalid recipient"; output := [] |}
  end.

(** The recipients' positions and the plaintext of a ciphertext. *)
Fixpoint parse (fuel : nat) (c : bytes) : option (list nat * bytes) :=
  match fuel, c with
  | S fuel', x84 :: x02 :: x03 :: i :: c' =>
      '(rest, plain) ← parse fuel' c'; Some (Byte.to_nat i :: rest, plain)
  | _, xd2 :: plain => Some ([], plain)
  | _, _ => None
  end.

Definition decrypt_file (c : bytes) : Crypt :=
  match parse (length c) c with
  | Some (_ :: _, plain) =>
      {| ok := true; status := "decryption ok"; output := plain |}
  | _ => {| ok := false; status := "decryption failed"; output := [] |}
  end.

Definition list_packets (ring : list KeyInfo) (c : bytes)
    : list (string * string) :=
  match parse (length c) c with
  | Some (positions, _) =>
      omap (λ i, k ← ring !! i; Some ("ENC_TO", keyid k ++ " 1 0")) positions
  | None => []
  end.

Definition gen_key_input (args : GenKeyInput) : string :=
  "Name-Real: " ++ name_real args ++ newline
  ++ "Name-Email: " ++ name_email args ++ newline
  ++ "Passphrase: " ++ passphrase args ++ newline ++ "%commit" ++ newline.

End Keyring.

Definition keyring_gpg (ring : list KeyInfo) (new_key : GenKey) : GPG :=
  {| list_keys := Keyring.list_keys ring;
     encrypt_file := Keyring.encrypt_file ring;
     decrypt_file := Keyring.decrypt_file;
     list_packets := Keyring.list_packets ring;
     gen_key_input := Keyring.gen_key_input;
     gen_key := λ _, new_key;
     export_keys := λ f, "secret key of " ++ f |}.

Module Demo.

Definition alice : KeyInfo :=
  {| fingerprint := "A1A1A1A1A1A1A1A1A1A1A1A1A11CE000000000A1";
     keyid := "A11CE000000000A1" |}.
Definition bob : KeyInfo :=
  {| fingerprint := "B0B0B0B0B0B0B0B0B0B0B0B0B0B00000000000B2";
     keyid := "B0B00000000000B2" |}.

Definition gpg : GPG := keyring_gpg [alice; bob] {| gk_fingerprint := None |}.

Definition plain_file : file := File [x68; x69] 0x1A4.

(** A one-byte file holding the new-format tag byte of a session-key
    packet. *)
Definition tag_only_file : file := File [xc1] 0x1A4.

Definition w0 : world :=
  {| files := {[ "secrets/db.env" := plain_file ]};
     umask := 0x12;
     temp_names := ["k3x9"; "p0q1"; "zz42"];
     trace := [] |}.

Definition w1 : world :=
  {| files := {[ "secrets/tag" := tag_only_file ]};
     umask := 0x12;
     temp_names := ["k3x9"];
     trace := [] |}.

(** The secret of [w0], required for Alice's key named by fingerprint and
    by long key id. *)
Definition by_fingerprint : Secret :=
  Secret_init "secrets/db.env" {[ fingerprint alice ]}.

Definition generator : KeyGenerator :=
  {| _key_type := Some "RSA"; _key_length := Some 4096;
     _domain := "example.org" |}.

End Demo.

(** ** Worlds after a run of [encrypt] or [decrypt] *)

(** The world once the engine's output has been put in place of [path]. *)
Definition installed (w : world) (path tmp : string) (rest : list string)
    (ev : event) (out : bytes) : world :=
  {| files := <[path := File out (Z.land rw_all (Z.lnot (umask w)))]> (files w);
     umask := umask w;
     temp_names := rest;
     trace := Replace tmp path :: ev :: trace w |}.

(** The world once the temporary file has been removed again. *)
Definition discarded (w : world) (tmp : string) (rest : list string)
    (ev : event) : world :=
  {| files := files w;
     umask := umask w;
     temp_names := rest;
     trace := Remove tmp :: ev :: trace w |}.

(** ** Recipients and encryption transitions *)

(** What [update_keys] computes as [current_keys] for an encrypted file with
    the bytes [c]: the engine's packet listing, then [_get_master_keys]. *)
Definition recipients_of (gpg : GPG) (c : bytes) : result (gset string) :=
  packets ← handle_all ListPackets_init (list_packets gpg c);
  _get_master_keys gpg (encrypted_to packets).

Definition current_recipients (gpg : GPG) (w : world) (path : string)
    : result (gset string) :=
  file ← open_rb w path; recipients_of gpg (content file).





(** ** The synthetic alias *)

(** The union of the sets of every entry of an alias table. *)
Definition union_of_entries (aliases : gmap string (gset string)) : gset string :=
  ⋃ (map_to_list aliases).*2.

(** The entry named [all] is the union of every other entry. *)
Definition all_is_union_of_others (aliases : gmap string (gset string)) : Prop :=
  aliases !! "all" = Some (union_of_entries (delete "all" aliases)).

(** ** Closed forms used in the statements about detection and listing *)

(** The headers [Secret._detect_encryption] accepts: the new-format tag
    byte [0xC1], or an old-format tag byte of packet 1 ([0x84]-[0x87])
    followed, at the offset its length type gives, by the version byte 3. *)
Definition looks_encrypted (h : bytes) : bool :=
  match h !! 0%nat with
  | Some xc1 => true
  | Some x84 => bool_decide (h !! 2%nat = Some x03)
  | Some x85 => bool_decide (h !! 3%nat = Some x03)
  | Some x86 => bool_decide (h !! 5%nat = Some x03)
  | Some x87 => bool_decide (h !! 1%nat = Some x03)
  | _ => false
  end.



(** A ciphertext of the keyring engine for Bob alone, and a world holding it
    where [w0] holds a plaintext. *)
Definition Demo_bob_file : file := File [x84; x02; x03; x01; xd2; x68; x69] 0x1A4.

Definition Demo_w2 : world :=
  {| files := {[ "secrets/db.env" := Demo_bob_file ]};
     umask := 0x12;
     temp_names := ["k3x9"; "p0q1"; "zz42"];
     trace := [] |}.

(** A required set that names a key the keyring does not hold. *)
Definition Demo_with_stranger : Secret :=
  Secret_init "secrets/db.env" {[ fingerprint Demo.alice; "0000000000000BAD" ]}.

(** ** [class SecretsConfig] *)

(** A value of the [secrets] tree: a child given as a bare path string, or
    an attribute set with its optional [path], its optional [keys] and its
    other attributes, which are its children, in their order. *)
#[local] Set Warnings "-register-all".
Inductive secret_tree : Type :=
  | BarePath (path : string)
  | Attrs (path : option string) (keys : option (list string))
      (children : list (string * secret_tree)).

(** A dict of the parse queue: the root attribute set, or a child after
    [setdefault('keys', []).extend(key_aliases)]. *)
Record node : Type := {
  n_path : option string;
  n_keys : option (list string);
  n_children : list (string * secret_tree)
}.

(** The dict the loop enqueues for a child [cd]: [{'path': cd}] for a bare
    string, [cd] itself otherwise, with [key_aliases] appended to its
    [keys]. *)
Definition child_data (key_aliases : list string) (cd : secret_tree) : node :=
  match cd with
  | BarePath p =>
      {| n_path := Some p; n_keys := Some ([] ++ key_aliases)%list;
         n_children := [] |}
  | Attrs p k children =>
      {| n_path := p; n_keys := Some (default [] k ++ key_aliases)%list;
         n_children := children |}
  end.

(** [map(self.key_manager.lookup_alias, key_aliases)], consumed in order:
    the first unknown alias raises. *)
Fixpoint lookup_aliases (_aliases : gmap string (gset string))
    (key_aliases : list string) : result (list (gset string)) :=
  match key_aliases with
  | [] => Ok []
  | alias :: rest =>
      s ← lookup_alias _aliases alias;
      sets ← lookup_aliases _aliases rest;
      Ok (s :: sets)
  end.

(** [set.union( *map(self.key_manager.lookup_alias, key_aliases))]. *)
Definition resolve_aliases (_aliases : gmap string (gset string))
    (key_aliases : list string) : result (gset string) :=
  sets ← lookup_aliases _aliases key_aliases;
  set_union_star sets.

(** The [key_aliases] of a dict taken from the queue:
    [data.pop('keys', []) + ['master']]. *)
Definition key_aliases_of (data : node) : list string :=
  (default [] (n_keys data) ++ ["master"])%list.

(** [path and keys]: a non-empty path and a non-empty key set. *)
Definition recorded (path : option string) (keys : gset string) : bool :=
  match path with
  | Some p => negb (bool_decide (p = "")) && negb (bool_decide (keys = ∅))
  | None => false
  end.

(** The [while parse_queue] loop of [SecretsConfig.__init__].  The list is
    the deque read from its right end: [pop()] takes the head and
    [appendleft] adds at the end.  [fuel] bounds the number of dicts
    processed; [None] is a loop cut short by it. *)
Fixpoint parse_loop (fuel : nat) (_aliases : gmap string (gset string))
    (parse_queue : list node) (_secrets : list Secret)
    (_path_secrets : gmap string Secret)
    : option (result (list Secret * gmap string Secret)) :=
  match parse_queue with
  | [] => Some (Ok (_secrets, _path_secrets))
  | data :: parse_queue =>
      match fuel with
      | O => None
      | S fuel =>
          let path := n_path data in
          let key_aliases := key_aliases_of data in
          match resolve_aliases _aliases key_aliases with
          | Raise e => Some (Raise e)
          | Ok keys =>
              let '(_secrets, _path_secrets) :=
                if recorded path keys then
                  let secret := Secret_init (default "" path) keys in
                  ((_secrets ++ [secret])%list,
                   <[default "" path := secret]> _path_secrets)
                else (_secrets, _path_secrets) in
              parse_loop fuel _aliases
                (parse_queue
                 ++ (child_data key_aliases <$> (n_children data).*2))%list
                _secrets _path_secrets
          end
      end
  end.

(** The number of dicts a tree, a dict and a queue will put through the
    loop. *)
Fixpoint tree_size (t : secret_tree) : nat :=
  match t with
  | BarePath _ => 1%nat
  | Attrs _ _ children =>
      S ((fix go (l : list (string * secret_tree)) : nat :=
            match l with
            | [] => 0%nat
            | (_, c) :: l' => (tree_size c + go l')%nat
            end) children)
  end.

Definition forest_size (children : list (string * secret_tree)) : nat :=
  sum_list_with (λ child, tree_size child.2) children.

Definition node_size (data : node) : nat := S (forest_size (n_children data)).

Definition queue_size (parse_queue : list node) : nat :=
  sum_list_with node_size parse_queue.

(** The parsed configuration: the [generate], [keys] and [secrets]
    attributes, each possibly absent. *)
Record ConfigData : Type := {
  cd_generate : option GenerateConfig;
  cd_keys : option (gmap string key_config);
  cd_secrets : option node
}.

Record SecretsConfig : Type := {
  dir : string;
  key_generator : KeyGenerator;
  key_manager : gmap string (gset string);
  _secrets : list Secret;
  _path_secrets : gmap string Secret
}.

#[global] Instance KeyGenerator_eq_dec : EqDecision KeyGenerator.
Proof. solve_decision. Defined.
#[global] Instance SecretsConfig_eq_dec : EqDecision SecretsConfig.
Proof. solve_decision. Defined.

(** [SecretsConfig.__init__(config_path)], given whether the path is a
    directory and what [parse_nix] returned for it. *)
Definition SecretsConfig_init (config_path : string) (isdir : bool)
    (config_data : ConfigData) : option (result SecretsConfig) :=
  let dir := if isdir then config_path else (os_path_split config_path).1 in
  match KeyGenerator_init
          (default {| cfg_keyType := None; cfg_keyLength := None;
                      cfg_domain := None |} (cd_generate config_data)) with
  | Raise e => Some (Raise e)
  | Ok key_generator =>
      match KeyManager_init (default ∅ (cd_keys config_data)) with
      | Raise e => Some (Raise e)
      | Ok key_manager =>
          match cd_secrets config_data with
          | None => Some (Raise (KeyError "secrets"))
          | Some root =>
              match parse_loop (node_size root) key_manager [root] [] ∅ with
              | None => None
              | Some (Raise e) => Some (Raise e)
              | Some (Ok (secrets, path_secrets)) =>
                  Some (Ok {| dir := dir; key_generator := key_generator;
                              key_manager := key_manager;
                              _secrets := secrets;
                              _path_secrets := path_secrets |})
              end
          end
      end
  end.

(** [SecretsConfig.lookup_path(path)]. *)
Definition lookup_path (self : SecretsConfig) (path : string) : result Secret :=
  match _path_secrets self !! path with
  | Some secret => Ok secret
  | None => Raise (SecretError path "secret path is not configured")
  end.

(** The entries of a tree read top-down: each attribute set and bare path
    with the alias list it resolves, which is its own [keys], then the list
    of the attribute set above it, then [master]. *)
Fixpoint tree_entries (inherited : list string) (t : secret_tree)
    : list (option string * list string) :=
  match t with
  | BarePath p => [(Some p, (inherited ++ ["master"])%list)]
  | Attrs p k children =>
      let key_aliases := (default [] k ++ inherited ++ ["master"])%list in
      (p, key_aliases)
      :: (fix go (l : list (string * secret_tree)) :=
            match l with
            | [] => []
            | (_, c) :: l' => (tree_entries key_aliases c ++ go l')%list
            end) children
  end.

Definition forest_entries (inherited : list string)
    (children : list (string * secret_tree))
    : list (option string * list string) :=
  mjoin (tree_entries inherited <$> children.*2).

Definition node_entries (data : node) : list (option string * list string) :=
  (n_path data, key_aliases_of data)
  :: forest_entries (key_aliases_of data) (n_children data).

(** [child] is one of the dicts the loop puts on the queue when it takes
    [data] from it. *)
Definition enqueued_from (data child : node) : Prop :=
  ∃ cd, cd ∈ (n_children data).*2
        ∧ child = child_data (key_aliases_of data) cd.

(** The secret an entry gives rise to, if it has a path and its aliases
    resolve to a non-empty set. *)
Definition entry_secret (_aliases : gmap string (gset string))
    (entry : option string * list string) : option Secret :=
  match resolve_aliases _aliases entry.2 with
  | Ok keys =>
      if recorded entry.1 keys
      then Some (Secret_init (default "" entry.1) keys) else None
  | Raise _ => None
  end.

(** [self._path_secrets[path] = secret]. *)
Definition record_secret (path_secrets : gmap string Secret) (secret : Secret)
    : gmap string Secret := <[_path secret := secret]> path_secrets.

(** A configuration with three aliases and a tree in which [db.env] is
    configured twice. *)
Definition Demo_keys : gmap string key_config :=
  {[ "ops" := KeyIds ["A"; "B"]; "master" := KeyId "M"; "dev" := KeyId "D" ]}.

Definition Demo_root : node :=
  {| n_path := None; n_keys := None;
     n_children :=
       [("db", Attrs (Some "db.env") (Some ["ops"]) [("sub", BarePath "sub.env")]);
        ("web", BarePath "web.env");
        ("grp", Attrs None (Some ["dev"]) [("x", BarePath "db.env")])] |}.

Definition Demo_config_data : ConfigData :=
  {| cd_generate := Some {| cfg_keyType := None; cfg_keyLength := None;
                            cfg_domain := Some "example.org" |};
     cd_keys := Some Demo_keys;
     cd_secrets := Some Demo_root |}.

(** What loading it from the directory [/etc/secrets] gives. *)
Definition Demo_config : SecretsConfig :=
  {| dir := "/etc/secrets";
     key_generator := Demo.generator;
     key_manager := {[ "all" := {[ "A"; "B"; "M"; "D" ]};
                       "ops" := {[ "A"; "B" ]};
                       "master" := {[ "M" ]};
                       "dev" := {[ "D" ]} ]};
     _secrets := [Secret_init "db.env" {[ "M"; "A"; "B" ]};
                  Secret_init "web.env" {[ "M" ]};
                  Secret_init "sub.env" {[ "M"; "A"; "B" ]};
                  Secret_init "db.env" {[ "M"; "D" ]}];
     _path_secrets := {[ "db.env" := Secret_init "db.env" {[ "M"; "D" ]};
                         "web.env" := Secret_init "web.env" {[ "M" ]};
                         "sub.env" := Secret_init "sub.env" {[ "M"; "A"; "B" ]} ]} |}.

(** The same configuration without the [master] alias. *)
Definition Demo_no_master : ConfigData :=
  {| cd_generate := cd_generate Demo_config_data;
     cd_keys := Some (delete "master" Demo_keys);
     cd_secrets := Some Demo_root |}.

(** ** Exclusion patterns, directory pruning and the [check] command *)

(** [EXCLUDE_FILES]. *)
Definition EXCLUDE_FILES : list string :=
  ["*.nix"; ".git/*"; ".git"; ".pre-commit"].

(** [fnmatch.fnmatch(name, pat)] on POSIX, for patterns without brackets
    (none of [EXCLUDE_FILES] has one): [*] matches any run of characters,
    the separator [/] included, [?] matches any single character, and any
    other character matches itself; the whole name must match. *)
Fixpoint fnmatch_pattern (pat : string) : string → bool :=
  match pat with
  | EmptyString => λ name, bool_decide (name = "")
  | String c pat' =>
      if Ascii.eqb c "*" then
        fix star (name : string) : bool :=
          fnmatch_pattern pat' name
          || match name with
             | String _ name' => star name'
             | EmptyString => false
             end
      else if Ascii.eqb c "?" then
        λ name, match name with
                | String _ name' => fnmatch_pattern pat' name'
                | EmptyString => false
                end
      else
        λ name, match name with
                | String d name' => Ascii.eqb c d && fnmatch_pattern pat' name'
                | EmptyString => false
                end
  end.

Definition fnmatch (name pat : string) : bool := fnmatch_pattern pat name.

(** The [for i, dir_name in enumerate(dir_names)] loop of [all_secrets]
    with its [del dir_names[i]]: the iterator reads position [i] of the
    list as it is at that moment and then moves to [i + 1], whether or not
    the element at [i] was deleted.  [fuel] bounds the iterations. *)
Fixpoint prune_from (fuel : nat) (excluded : string → bool) (i : nat)
    (dir_names : list string) : list string :=
  match fuel with
  | O => dir_names
  | S fuel =>
      match dir_names !! i with
      | None => dir_names
      | Some dir_name =>
          prune_from fuel excluded (S i)
            (if excluded dir_name then delete i dir_names else dir_names)
      end
  end.

(** The same list with every excluded name dropped and the name after a
    dropped one kept unexamined. *)
Fixpoint prune_skipping (excluded : string → bool) (dir_names : list string)
    : list string :=
  match dir_names with
  | [] => []
  | x :: rest =>
      if excluded x then
        match rest with
        | [] => []
        | y :: rest' => y :: prune_skipping excluded rest'
        end
      else x :: prune_skipping excluded rest
  end.

(** No two neighbours of the list are both excluded. *)
Fixpoint no_adjacent_excluded (excluded : string → bool) (l : list string)
    : bool :=
  match l with
  | x :: (y :: _) as rest =>
      negb (excluded x && excluded y) && no_adjacent_excluded excluded rest
  | _ => true
  end.

Definition double_quote : string := String "034" "".

Section Paths.

(** [os.path.relpath], which resolves both paths against the working
    directory of the process. *)
Variable relpath : string → string → string.

(** [SecretsConfig.is_excluded(path)]. *)
Definition is_excluded (self : SecretsConfig) (path : string) : bool :=
  let path := relpath path (dir self) in
  existsb (fnmatch path) EXCLUDE_FILES.

(** The pruning of [dir_names] in [all_secrets], for the directory
    [dir_path] the walk is in. *)
Definition prune_dir_names (self : SecretsConfig) (dir_path : string)
    (dir_names : list string) : list string :=
  prune_from (length dir_names)
    (λ dir_name, is_excluded self (os_path_join dir_path dir_name)) 0 dir_names.

End Paths.

(** The loop of [check_command] over the paths [all_secrets] yields: what
    was printed so far, and whether every secret so far was encrypted.  An
    error of [secret.encrypted] ends the loop with the lines printed before
    it. *)
Fixpoint check_loop (paths : list string) (w : world) (all_encrypted : bool)
    (stdout : list string) : result bool * list string :=
  match paths with
  | [] => (Ok all_encrypted, stdout)
  | path :: paths =>
      let secret := Secret_init path ∅ in
      match (encrypted secret w).1.1 with
      | Raise e => (Raise e, stdout)
      | Ok true => check_loop paths w all_encrypted stdout
      | Ok false =>
          check_loop paths w false
            (stdout ++ [(double_quote ++ path ++ double_quote
                         ++ " is not encrypted")%string])%list
      end
  end.

(** [check_command(config, args)], given the paths of
    [config.all_secrets()]: the exit code and the lines printed. *)
Definition check_command (paths : list string) (w : world)
    : result Z * list string :=
  match check_loop paths w true [] with
  | (Raise e, stdout) => (Raise e, stdout)
  | (Ok true, stdout) => (Ok 0, (stdout ++ ["All secrets are encrypted"])%list)
  | (Ok false, stdout) => (Ok 2, stdout)
  end.

(** A path prefix stripper standing for [relpath] on paths written below
    [/etc/secrets]. *)
Fixpoint strip_prefix (prefix s : string) : option string :=
  match prefix, s with
  | EmptyString, _ => Some s
  | String c prefix', String d s' =>
      if Ascii.eqb c d then strip_prefix prefix' s' else None
  | _, _ => None
  end.

Definition Demo_relpath (path start : string) : string :=
  default path (strip_prefix (start ++ "/") path).

(** A pattern made of ordinary characters only. *)
Fixpoint literal (pat : string) : bool :=
  match pat with
  | EmptyString => true
  | String c pat' =>
      negb (Ascii.eqb c "*") && negb (Ascii.eqb c "?") && literal pat'
  end.

(** The file at [path] exists and does not look encrypted. *)
Definition unencrypted (w : world) (path : string) : bool :=
  match files w !! path with
  | Some f => negb (looks_encrypted (content f))
  | None => false
  end.

(** The line [check_command] prints for an unencrypted path. *)
Definition not_encrypted_line (path : string) : string :=
  double_quote ++ path ++ double_quote ++ " is not encrypted".


(** Every path of the list can be opened. *)
Definition all_present (w : world) (paths : list string) : Prop :=
  Forall (λ path, is_Some (files w !! path)) paths.

(** A directory with one ciphertext and two plaintexts. *)
Definition Demo_w3 : world :=
  {| files := {[ "/etc/secrets/db.env" := Demo_bob_file;
                 "/etc/secrets/web.env" := Demo.plain_file;
                 "/etc/secrets/notes" := Demo.plain_file ]};
     umask := 0x12;
     temp_names := ["k3x9"; "p0q1"; "zz42"];
     trace := [] |}.

(** ** The [decrypt] and [encrypt] commands *)

(** [w'] has the files of [w] under the same names, and the same content
    and mode for every file whose path is not [allowed]. *)
Definition changes_only (allowed : string → Prop) (w w' : world) : Prop :=
  (∀ p, ¬ allowed p → files w' !! p = files w !! p)
  ∧ (∀ p, is_Some (files w' !! p) ↔ is_Some (files w !! p)).

(** The file the engine's plaintext for [f] is installed as. *)
Definition decrypted_file (gpg : GPG) (w : world) (f : file) : file :=
  File (output (decrypt_file gpg (content f)))
    (Z.land rw_all (Z.lnot (umask w))).

(** Why [decrypt] raises [e] for [path] in the world [w]: [file] is what
    the path holds.  There is no file, or no temporary file can be made, or
    the engine does not report ok. *)
Definition decrypt_failure (gpg : GPG) (w : world) (path : string)
    (file : option file) (e : exn) : Prop :=
  match file with
  | None => e = FileNotFoundError path
  | Some f =>
      match mkstemp_from (files w) (os_path_split path).1
              (os_path_split path).2 (temp_names w) with
      | None => e = FileExistsError
      | Some _ =>
          ok (decrypt_file gpg (content f)) = false
          ∧ e = SecretError path (status (decrypt_file gpg (content f)))
      end
  end.

(** The object [secret] after a method ran on it, seen through
    [self._path_secrets[path]].  [self._secrets] holds the same objects and
    is read by nothing after loading. *)
Definition with_secret (path : string) (secret : Secret)
    (config : SecretsConfig) : SecretsConfig :=
  {| dir := dir config;
     key_generator := key_generator config;
     key_manager := key_manager config;
     _secrets := _secrets config;
     _path_secrets := <[path := secret]> (_path_secrets config) |}.

(** The paths the configuration has a secret for, as the secrets hold
    them. *)
Definition configured (config : SecretsConfig) (p : string) : Prop :=
  ∃ k secret, _path_secrets config !! k = Some secret ∧ _path secret = p.

(** What of a secret its methods never change. *)
Definition identity_of (secret : Secret) : string * gset string :=
  (_path secret, _keys secret).

(** [config'] is [config] up to the flags of its secrets. *)
Definition same_secrets (config config' : SecretsConfig) : Prop :=
  dir config' = dir config
  ∧ key_manager config' = key_manager config
  ∧ identity_of <$> _path_secrets config' = identity_of <$> _path_secrets config.

Section Commands.

Variable gpg : GPG.

(** [os.path.relpath], [os.path.isdir] and, for [os.walk(top)], the
    directory paths with their file names in the order it yields them.  The
    methods run in between leave the names in the tree as they are. *)
Variable relpath : string → string → string.
Variable isdir : string → bool.
Variable walk : string → list (string * list string).

(** [decrypt_command(config, args)] on [args.files]. *)
Fixpoint decrypt_command (files : list string) (w : world)
    : result Z * world :=
  match files with
  | [] => (Ok 0, w)
  | path :: files =>
      let secret := Secret_init path ∅ in
      match decrypt gpg secret w with
      | (Ok _, _, w) => decrypt_command files w
      | (Raise e, _, w) => (Raise e, w)
      end
  end.

(** [encrypt_path(path)] of [encrypt_command]. *)
Definition encrypt_path (path : string) (config : SecretsConfig) (w : world)
    : result unit * SecretsConfig * world :=
  let path := relpath path (dir config) in
  match lookup_path config path with
  | Raise e => (Raise e, config, w)
  | Ok secret =>
      let '(r, secret, w) := update_keys gpg secret w in
      (r, with_secret path secret config, w)
  end.

(** [for name in filenames], with its [continue] for an excluded path. *)
Fixpoint encrypt_names (dirpath : string) (filenames : list string)
    (config : SecretsConfig) (w : world)
    : result unit * SecretsConfig * world :=
  match filenames with
  | [] => (Ok (), config, w)
  | name :: filenames =>
      let path := os_path_join dirpath name in
      if is_excluded relpath config path then
        encrypt_names dirpath filenames config w
      else
        match encrypt_path path config w with
        | (Ok _, config, w) => encrypt_names dirpath filenames config w
        | (Raise e, config, w) => (Raise e, config, w)
        end
  end.

(** [for dirpath, _, filenames in os.walk(arg_path)]. *)
Fixpoint encrypt_walk (walked : list (string * list string))
    (config : SecretsConfig) (w : world)
    : result unit * SecretsConfig * world :=
  match walked with
  | [] => (Ok (), config, w)
  | (dirpath, filenames) :: walked =>
      match encrypt_names dirpath filenames config w with
      | (Ok _, config, w) => encrypt_walk walked config w
      | (Raise e, config, w) => (Raise e, config, w)
      end
  end.

(** [encrypt_command(config, args)] on [args.recursive] and
    [args.files]. *)
Fixpoint encrypt_command (config : SecretsConfig) (recursive : bool)
    (files : list string) (w : world) : result Z * SecretsConfig * world :=
  match files with
  | [] => (Ok 0, config, w)
  | arg_path :: files =>
      match (if isdir arg_path && recursive
             then encrypt_walk (walk arg_path) config w
             else encrypt_path arg_path config w) with
      | (Ok _, config, w) => encrypt_command config recursive files w
      | (Raise e, config, w) => (Raise e, config, w)
      end
  end.

(** Calls of [encrypt_path] in a row, up to the first that raises. *)
Fixpoint encrypt_paths (paths : list string) (config : SecretsConfig)
    (w : world) : result unit * SecretsConfig * world :=
  match paths with
  | [] => (Ok (), config, w)
  | path :: paths =>
      match encrypt_path path config w with
      | (Ok _, config, w) => encrypt_paths paths config w
      | (Raise e, config, w) => (Raise e, config, w)
      end
  end.

(** The paths of the secrets that [config] has for [attempted]. *)
Definition touched (config : SecretsConfig) (attempted : list string)
    (p : string) : Prop :=
  ∃ path secret,
    path ∈ attempted
    ∧ lookup_path config (relpath path (dir config)) = Ok secret
    ∧ _path secret = p.

(** The paths [encrypt_command] hands to [encrypt_path]. *)
Definition encrypt_targets (config : SecretsConfig) (recursive : bool)
    (files : list string) : list string :=
  arg_path ← files;
  if isdir arg_path && recursive then
    '(dirpath, filenames) ← walk arg_path;
    filter (λ path, is_excluded relpath config path = false)
      (os_path_join dirpath <$> filenames)
  else [arg_path].

End Commands.

(** A configuration for the secret of [Demo.w0], and a walk of its
    directory. *)
Definition Demo_w0_config : SecretsConfig :=
  {| dir := "/etc/secrets";
     key_generator := Demo.generator;
     key_manager := {[ "all" := {[ fingerprint Demo.alice ]};
                       "master" := {[ fingerprint Demo.alice ]} ]};
     _secrets := [Demo.by_fingerprint];
     _path_secrets := {[ "secrets/db.env" := Demo.by_fingerprint ]} |}.

Definition Demo_isdir (path : string) : bool :=
  bool_decide (path = "/etc/secrets").

Definition Demo_walk (top : string) : list (string * list string) :=
  if bool_decide (top = "/etc/secrets") then
    [("/etc/secrets", ["secrets.nix"]); ("/etc/secrets/secrets", ["db.env"])]
  else [].
(** * Properties *)

(** ** Running the method monad *)

Lemma bindM_ok {A B} (m : M A) (k : A → M B) s w a s' w' :
  m s w = (Ok a, s', w') → bindM m k s w = k a s' w'.
Proof. intros H. unfold bindM. by rewrite H. Qed.

Lemma bindM_raise {A B} (m : M A) (k : A → M B) s w e s' w' :
  m s w = (Raise e, s', w') → bindM m k s w = (Raise e, s', w').
Proof. intros H. unfold bindM. by rewrite H. Qed.

Ltac run_monad :=
  cbv beta iota zeta delta
    [bindM mbind M_bind mret M_ret get_self get_world put_world
     set_encrypted lift sys raise pass fst snd].

(** A decidable hypothesis about concrete data that evaluates to false. *)
Ltac refute_by_computation H :=
  match type of H with
  | ?P =>
      let Hfalse := fresh in
      assert (bool_decide P = false) as Hfalse by (vm_compute; reflexivity);
      exact (bool_decide_eq_false_1 P Hfalse H)
  end.

(** ** Packet heuristic *)

Lemma getitem_raises b i e : getitem b i = Raise e → e = IndexError.
Proof. unfold getitem. destruct (b !! i); congruence. Qed.

(** The only exception the [try] block can raise is the one it catches. *)
Lemma check_header_raises header e :
  check_header header = Raise e → e = IndexError.
Proof.
  unfold check_header. intros H.
  destruct (getitem header 0) as [h0|e0] eqn:E0; cbn in H.
  - repeat case_match; try discriminate H;
      match type of H with
      | context [getitem header ?i] =>
          destruct (getitem header i) as [v|e1] eqn:E1; cbn in H;
          [ by repeat case_match | injection H as <-; by eapply getitem_raises ]
      end.
  - injection H as <-. by eapply getitem_raises.
Qed.

Lemma classify_header_total header : ∃ b, classify_header header = Ok b.
Proof.
  unfold classify_header.
  destruct (check_header header) as [b|e] eqn:E; [by eexists|].
  apply check_header_raises in E as ->. by eexists.
Qed.

Lemma classify_header_index_error header :
  check_header header = Raise IndexError → classify_header header = Ok false.
Proof. unfold classify_header. by intros ->. Qed.

Lemma classify_header_empty : classify_header [] = Ok false.
Proof. reflexivity. Qed.

Lemma classify_header_high_bit_clear b rest :
  Z.land (Z.of_N (Byte.to_N b)) 0x80 = 0 → classify_header (b :: rest) = Ok false.
Proof.
  intros H. unfold classify_header, check_header, getitem. cbn [lookup list_lookup].
  cbn [mbind result_bind Py.bind]. by rewrite H.
Qed.

(** Among the one-byte headers exactly [0xC1], the new-format tag byte of a
    session-key packet, is accepted: the new-format branch reads nothing
    after the tag. *)
Lemma classify_header_one_byte b :
  classify_header [b] = Ok (bool_decide (b = xc1)).
Proof. destruct b; vm_compute; reflexivity. Qed.

Lemma detect_encryption_present s w f :
  files w !! _path s = Some f →
  _detect_encryption s w = (classify_header (read f 32), s, w).
Proof.
  intros H. unfold _detect_encryption, open_rb. run_monad. rewrite H. by run_monad.
Qed.

Lemma detect_encryption_absent s w :
  files w !! _path s = None →
  _detect_encryption s w = (Raise (FileNotFoundError (_path s)), s, w).
Proof.
  intros H. unfold _detect_encryption, open_rb. run_monad. rewrite H. by run_monad.
Qed.

(** C6, as stated, fails: the one-byte file [0xC1] is shorter than two
    bytes and is classified as encrypted. *)
Lemma detect_encryption_short_file_counterexample :
  _detect_encryption (Secret_init "secrets/tag" ∅) Demo.w1
  = (Ok true, Secret_init "secrets/tag" ∅, Demo.w1)
  ∧ ¬ (∀ (s : Secret) (w : world) (f : file),
         files w !! _path s = Some f →
         (length (content f) < 2)%nat →
         _detect_encryption s w = (Ok false, s, w)).
Proof.
  assert (_detect_encryption (Secret_init "secrets/tag" ∅) Demo.w1
          = (Ok true, Secret_init "secrets/tag" ∅, Demo.w1)) as E
    by (by rewrite (detect_encryption_present _ _ Demo.tag_only_file)).
  split; [exact E|]. intros H.
  rewrite (H _ _ Demo.tag_only_file) in E; [discriminate E|done|cbn; lia].
Qed.

(** C6 (amended): detection never raises on a readable file.  An empty
    file and a file whose first byte has the high bit clear are classified
    as not encrypted; a one-byte file is classified as not encrypted unless
    it is the byte [0xC1]; and an index error while parsing the header
    gives not encrypted. *)
Theorem detect_encryption_never_raises (s : Secret) (w : world) (f : file) :
  files w !! _path s = Some f →
  (∃ b, _detect_encryption s w = (Ok b, s, w))
  ∧ (content f = [] → _detect_encryption s w = (Ok false, s, w))
  ∧ (∀ b, content f = [b] →
          _detect_encryption s w = (Ok (bool_decide (b = xc1)), s, w))
  ∧ (∀ b rest, content f = b :: rest →
          Z.land (Z.of_N (Byte.to_N b)) 0x80 = 0 →
          _detect_encryption s w = (Ok false, s, w))
  ∧ (check_header (read f 32) = Raise IndexError →
          _detect_encryption s w = (Ok false, s, w)).
Proof.
  intros Hf. rewrite (detect_encryption_present _ _ _ Hf).
  repeat split.
  - destruct (classify_header_total (read f 32)) as [b ->]. by eexists.
  - intros E. unfold read. by rewrite E.
  - intros b E. unfold read. rewrite E. cbn [take].
    by rewrite classify_header_one_byte.
  - intros b rest E Hb. unfold read. rewrite E. cbn [take].
    by rewrite classify_header_high_bit_clear.
  - intros E. by rewrite classify_header_index_error.
Qed.

Lemma detect_encryption_never_raises_witness :
  files Demo.w0 !! _path (Secret_init "secrets/db.env" ∅) = Some Demo.plain_file
  ∧ _detect_encryption (Secret_init "secrets/db.env" ∅) Demo.w0
    = (Ok false, Secret_init "secrets/db.env" ∅, Demo.w0).
Proof.
  split; [reflexivity|].
  refine (proj1 (proj2 (proj2 (proj2
    (detect_encryption_never_raises (Secret_init "secrets/db.env" ∅)
       Demo.w0 Demo.plain_file _))))
    x68 [x69] _ _); reflexivity.
Defined.

(** ** The cached flag *)

Section SecretFacts.

Variable gpg : GPG.

Lemma with_encrypted_id s b : _encrypted s = Some b → with_encrypted (Some b) s = s.
Proof. destruct s; cbn; by intros ->. Qed.

Lemma encrypted_cached s w b :
  _encrypted s = Some b → encrypted s w = (Ok b, s, w).
Proof. intros H. unfold encrypted. run_monad. by rewrite H. Qed.

Lemma encrypted_unknown s w :
  _encrypted s = None →
  encrypted s w =
    match _detect_encryption s w with
    | (Ok b, _, _) => (Ok b, with_encrypted (Some b) s, w)
    | (Raise e, _, _) => (Raise e, s, w)
    end.
Proof.
  intros H. unfold encrypted. run_monad. rewrite H.
  destruct (files w !! _path s) as [f|] eqn:Hf.
  - rewrite (detect_encryption_present _ _ _ Hf).
    destruct (classify_header_total (read f 32)) as [b ->]. done.
  - by rewrite (detect_encryption_absent _ _ Hf).
Qed.

(** Reading the property returns the flag it leaves in the object, and
    never touches the world. *)
Lemma encrypted_ok_inv s w b s1 w1 :
  encrypted s w = (Ok b, s1, w1) →
  s1 = with_encrypted (Some b) s ∧ w1 = w.
Proof.
  destruct (_encrypted s) as [b'|] eqn:E.
  - rewrite (encrypted_cached _ _ _ E). intros [= <- <- <-].
    by rewrite with_encrypted_id.
  - rewrite (encrypted_unknown _ _ E).
    destruct (_detect_encryption s w) as [[[b'|e] s'] w']; by intros [= <- <- <-].
Qed.

Lemma encrypted_raise_inv s w e s1 w1 :
  encrypted s w = (Raise e, s1, w1) →
  s1 = s ∧ w1 = w ∧ _encrypted s = None.
Proof.
  destruct (_encrypted s) as [b'|] eqn:E.
  - by rewrite (encrypted_cached _ _ _ E).
  - rewrite (encrypted_unknown _ _ E).
    destruct (_detect_encryption s w) as [[[b'|e'] s'] w']; by intros [= <- <- <-].
Qed.

(** ** Temporary files *)

Lemma mkstemp_from_fresh fs dir prefix names tmp rest :
  mkstemp_from fs dir prefix names = Some (tmp, rest) → fs !! tmp = None.
Proof.
  induction names as [|n names IH]; cbn; [done|].
  destruct (fs !! os_path_join dir (prefix ++ n)) eqn:E; [done|].
  by intros [= <- <-].
Qed.

Lemma temp_installed (fs : gmap string file) path tmp (g h : file → file) x :
  fs !! tmp = None →
  <[path := h (g x)]> (delete tmp (alter h tmp (alter g tmp (<[tmp := x]> fs))))
  = <[path := h (g x)]> fs.
Proof.
  intros H. by rewrite !alter_insert_eq, delete_insert_eq, delete_id.
Qed.

Lemma temp_discarded (fs : gmap string file) tmp (g : file → file) x :
  fs !! tmp = None →
  delete tmp (alter g tmp (<[tmp := x]> fs)) = fs.
Proof. intros H. by rewrite alter_insert_eq, delete_insert_eq, delete_id. Qed.

(** [encrypt] on a secret known to be plaintext, whose file can be opened
    and for which a temporary file can be created. *)
Lemma encrypt_plaintext s w f tmp rest :
  _encrypted s = Some false →
  files w !! _path s = Some f →
  mkstemp_from (files w) (os_path_split (_path s)).1
    (os_path_split (_path s)).2 (temp_names w) = Some (tmp, rest) →
  let result := encrypt_file gpg (content f) (_keys s) in
  encrypt gpg s w =
    if ok result then
      (Ok (), with_encrypted (Some true) s,
       installed w (_path s) tmp rest (EncryptFile tmp (_keys s)) (output result))
    else
      (Raise (SecretError (_path s) (status result)), s,
       discarded w tmp rest (EncryptFile tmp (_keys s))).
Proof.
  intros He Hf Ht result. pose proof (mkstemp_from_fresh _ _ _ _ _ _ Ht) as Hfresh.
  unfold encrypt. rewrite (bindM_ok _ _ _ _ _ _ _ (encrypted_cached _ _ _ He)).
  run_monad. destruct (os_path_split (_path s)) as [d p] eqn:Esplit. run_monad.
  unfold open_rb. rewrite Hf. run_monad. unfold NamedTemporaryFile.
  cbn in Ht. rewrite Ht. run_monad. fold result.
  destruct (ok result) eqn:Hok; run_monad.
  - unfold os_replace, os_fchmod, engine_output, log_event, set_files, get_umask.
    cbn [files umask temp_names trace].
    rewrite !lookup_alter_eq, lookup_insert_eq. cbn [fmap option_fmap option_map content mode].
    unfold installed. do 2 f_equal.
    apply (temp_installed (files w) (_path s) tmp
             (λ f0, File (output result) (mode f0))
             (λ f0, File (content f0) (Z.land rw_all (Z.lnot (umask w))))
             (File [] 0x180) Hfresh).
  - unfold os_remove, engine_output, log_event, set_files.
    cbn [files umask temp_names trace].
    rewrite lookup_alter_eq, lookup_insert_eq. cbn [fmap option_fmap option_map].
    unfold discarded. do 2 f_equal.
    apply temp_discarded, Hfresh.
Qed.

(** [decrypt] on a secret whose file can be opened and for which a
    temporary file can be created. *)
Lemma decrypt_present s w f tmp rest :
  files w !! _path s = Some f →
  mkstemp_from (files w) (os_path_split (_path s)).1
    (os_path_split (_path s)).2 (temp_names w) = Some (tmp, rest) →
  let result := decrypt_file gpg (content f) in
  decrypt gpg s w =
    if ok result then
      (Ok (), with_encrypted (Some false) s,
       installed w (_path s) tmp rest (DecryptFile tmp) (output result))
    else
      (Raise (SecretError (_path s) (status result)), s,
       discarded w tmp rest (DecryptFile tmp)).
Proof.
  intros Hf Ht result. pose proof (mkstemp_from_fresh _ _ _ _ _ _ Ht) as Hfresh.
  unfold decrypt. run_monad.
  destruct (os_path_split (_path s)) as [d p] eqn:Esplit. run_monad.
  unfold open_rb. rewrite Hf. run_monad. unfold NamedTemporaryFile.
  cbn in Ht. rewrite Ht. run_monad. fold result.
  destruct (ok result) eqn:Hok; run_monad.
  - unfold os_replace, os_fchmod, engine_output, log_event, set_files, get_umask.
    cbn [files umask temp_names trace].
    rewrite !lookup_alter_eq, lookup_insert_eq.
    cbn [fmap option_fmap option_map content mode].
    unfold installed. do 2 f_equal.
    apply (temp_installed (files w) (_path s) tmp
             (λ f0, File (output result) (mode f0))
             (λ f0, File (content f0) (Z.land rw_all (Z.lnot (umask w))))
             (File [] 0x180) Hfresh).
  - unfold os_remove, engine_output, log_event, set_files.
    cbn [files umask temp_names trace].
    rewrite lookup_alter_eq, lookup_insert_eq. cbn [fmap option_fmap option_map].
    unfold discarded. do 2 f_equal.
    apply temp_discarded, Hfresh.
Qed.

Lemma decrypt_absent s w :
  files w !! _path s = None →
  decrypt gpg s w = (Raise (FileNotFoundError (_path s)), s, w).
Proof.
  intros Hf. unfold decrypt. run_monad.
  destruct (os_path_split (_path s)) as [d p]. run_monad.
  unfold open_rb. by rewrite Hf.
Qed.

Lemma decrypt_no_temp s w f :
  files w !! _path s = Some f →
  mkstemp_from (files w) (os_path_split (_path s)).1
    (os_path_split (_path s)).2 (temp_names w) = None →
  decrypt gpg s w
  = (Raise FileExistsError, s, World (files w) (umask w) [] (trace w)).
Proof.
  intros Hf Ht. unfold decrypt. run_monad.
  destruct (os_path_split (_path s)) as [d p]. run_monad.
  unfold open_rb. rewrite Hf. run_monad. unfold NamedTemporaryFile.
  cbn in Ht. by rewrite Ht.
Qed.

Lemma encrypt_absent s w :
  _encrypted s = Some false →
  files w !! _path s = None →
  encrypt gpg s w = (Raise (FileNotFoundError (_path s)), s, w).
Proof.
  intros He Hf. unfold encrypt.
  rewrite (bindM_ok _ _ _ _ _ _ _ (encrypted_cached _ _ _ He)). run_monad.
  destruct (os_path_split (_path s)) as [d p]. run_monad.
  unfold open_rb. by rewrite Hf.
Qed.

Lemma encrypt_no_temp s w f :
  _encrypted s = Some false →
  files w !! _path s = Some f →
  mkstemp_from (files w) (os_path_split (_path s)).1
    (os_path_split (_path s)).2 (temp_names w) = None →
  encrypt gpg s w
  = (Raise FileExistsError, s, World (files w) (umask w) [] (trace w)).
Proof.
  intros He Hf Ht. unfold encrypt.
  rewrite (bindM_ok _ _ _ _ _ _ _ (encrypted_cached _ _ _ He)). run_monad.
  destruct (os_path_split (_path s)) as [d p]. run_monad.
  unfold open_rb. rewrite Hf. run_monad. unfold NamedTemporaryFile.
  cbn in Ht. by rewrite Ht.
Qed.

Lemma encrypt_already s w :
  _encrypted s = Some true → encrypt gpg s w = (Ok (), s, w).
Proof.
  intros He. unfold encrypt.
  by rewrite (bindM_ok _ _ _ _ _ _ _ (encrypted_cached _ _ _ He)).
Qed.

(** [encrypt] starts by reading the property; from then on it runs as on
    the object with the flag filled in. *)
Lemma encrypt_after_flag s w b s1 w1 :
  encrypted s w = (Ok b, s1, w1) → encrypt gpg s w = encrypt gpg s1 w1.
Proof.
  intros H. pose proof (encrypted_ok_inv _ _ _ _ _ H) as [-> ->].
  unfold encrypt at 1. rewrite (bindM_ok _ _ _ _ _ _ _ H).
  unfold encrypt.
  by rewrite (bindM_ok _ _ _ _ _ _ _
                (encrypted_cached (with_encrypted (Some b) s) w b eq_refl)).
Qed.

Lemma encrypt_flag_raise s w e s1 w1 :
  encrypted s w = (Raise e, s1, w1) → encrypt gpg s w = (Raise e, s, w).
Proof.
  intros H. pose proof (encrypted_raise_inv _ _ _ _ _ H) as (-> & -> & _).
  unfold encrypt. by rewrite (bindM_raise _ _ _ _ _ _ _ H).
Qed.

End SecretFacts.

(** ** What a finished [encrypt] or [decrypt] has done *)

Section Outcomes.

Variable gpg : GPG.

Lemma encrypt_plaintext_ok_inv s w s' w' :
  _encrypted s = Some false →
  encrypt gpg s w = (Ok (), s', w') →
  ∃ f tmp rest,
    files w !! _path s = Some f
    ∧ ok (encrypt_file gpg (content f) (_keys s)) = true
    ∧ s' = with_encrypted (Some true) s
    ∧ w' = installed w (_path s) tmp rest (EncryptFile tmp (_keys s))
             (output (encrypt_file gpg (content f) (_keys s))).
Proof.
  intros He H.
  destruct (files w !! _path s) as [f|] eqn:Hf;
    [|by rewrite encrypt_absent in H].
  destruct (mkstemp_from (files w) (os_path_split (_path s)).1
              (os_path_split (_path s)).2 (temp_names w))
    as [[tmp rest]|] eqn:Ht;
    [|by rewrite (encrypt_no_temp _ _ _ f) in H].
  rewrite (encrypt_plaintext gpg s w f tmp rest He Hf Ht) in H.
  destruct (ok (encrypt_file gpg (content f) (_keys s))) eqn:Hok; [|done].
  injection H as <- <-. by exists f, tmp, rest.
Qed.

Lemma encrypt_plaintext_raise_inv s w e s' w' :
  _encrypted s = Some false →
  encrypt gpg s w = (Raise e, s', w') →
  s' = s ∧ files w' = files w.
Proof.
  intros He H.
  destruct (files w !! _path s) as [f|] eqn:Hf;
    [|rewrite encrypt_absent in H by done; by injection H as <- <- <-].
  destruct (mkstemp_from (files w) (os_path_split (_path s)).1
              (os_path_split (_path s)).2 (temp_names w))
    as [[tmp rest]|] eqn:Ht;
    [|rewrite (encrypt_no_temp _ _ _ f) in H by done; by injection H as <- <- <-].
  rewrite (encrypt_plaintext gpg s w f tmp rest He Hf Ht) in H.
  destruct (ok (encrypt_file gpg (content f) (_keys s))) eqn:Hok; [done|].
  by injection H as <- <- <-.
Qed.

Lemma decrypt_ok_inv s w s' w' :
  decrypt gpg s w = (Ok (), s', w') →
  ∃ f tmp rest,
    files w !! _path s = Some f
    ∧ ok (decrypt_file gpg (content f)) = true
    ∧ s' = with_encrypted (Some false) s
    ∧ w' = installed w (_path s) tmp rest (DecryptFile tmp)
             (output (decrypt_file gpg (content f))).
Proof.
  intros H.
  destruct (files w !! _path s) as [f|] eqn:Hf;
    [|by rewrite decrypt_absent in H].
  destruct (mkstemp_from (files w) (os_path_split (_path s)).1
              (os_path_split (_path s)).2 (temp_names w))
    as [[tmp rest]|] eqn:Ht;
    [|by rewrite (decrypt_no_temp _ _ _ f) in H].
  rewrite (decrypt_present gpg s w f tmp rest Hf Ht) in H.
  destruct (ok (decrypt_file gpg (content f))) eqn:Hok; [|done].
  injection H as <- <-. by exists f, tmp, rest.
Qed.

Lemma decrypt_raise_inv s w e s' w' :
  decrypt gpg s w = (Raise e, s', w') → s' = s ∧ files w' = files w.
Proof.
  intros H.
  destruct (files w !! _path s) as [f|] eqn:Hf;
    [|rewrite decrypt_absent in H by done; by injection H as <- <- <-].
  destruct (mkstemp_from (files w) (os_path_split (_path s)).1
              (os_path_split (_path s)).2 (temp_names w))
    as [[tmp rest]|] eqn:Ht;
    [|rewrite (decrypt_no_temp _ _ _ f) in H by done; by injection H as <- <- <-].
  rewrite (decrypt_present gpg s w f tmp rest Hf Ht) in H.
  destruct (ok (decrypt_file gpg (content f))) eqn:Hok; [done|].
  by injection H as <- <- <-.
Qed.

(** Whatever [encrypt] does, the flag it leaves is the one the property
    read, or [Some true]. *)
Lemma encrypt_flag s w :
  let '(r, s', _) := encrypt gpg s w in
  match r with
  | Ok _ => _encrypted s' = Some true
  | Raise _ => _encrypted s' = _encrypted s ∨ _encrypted s' = Some false
  end.
Proof.
  destruct (encrypted s w) as [[[b|e] s1] w1] eqn:E.
  - rewrite (encrypt_after_flag gpg _ _ _ _ _ E).
    apply encrypted_ok_inv in E as [-> ->].
    destruct b.
    + by rewrite encrypt_already.
    + destruct (encrypt gpg _ w) as [[[[]|e] s'] w'] eqn:E'.
      * by apply encrypt_plaintext_ok_inv in E' as (?&?&?&?&?&->&?).
      * apply encrypt_plaintext_raise_inv in E' as [-> _]; [|done]. by right.
  - rewrite (encrypt_flag_raise gpg _ _ _ _ _ E). by left.
Qed.

Lemma decrypt_flag s w :
  let '(r, s', _) := decrypt gpg s w in
  match r with
  | Ok _ => _encrypted s' = Some false
  | Raise _ => _encrypted s' = _encrypted s
  end.
Proof.
  destruct (decrypt gpg s w) as [[[[]|e] s'] w'] eqn:E.
  - by apply decrypt_ok_inv in E as (?&?&?&?&?&->&?).
  - by apply decrypt_raise_inv in E as [-> _].
Qed.

End Outcomes.

(** ** Claims about [Secret] *)

(** C10: when the path cannot be opened, [_detect_encryption] raises the
    error of [open] instead of answering not-encrypted, and the property
    [encrypted] lets that error through without filling the flag.  The
    only exception turned into a not-encrypted answer is the [IndexError]
    of parsing the header already read. *)
Theorem detect_encryption_open_error (s : Secret) (w : world) :
  files w !! _path s = None →
  _detect_encryption s w = (Raise (FileNotFoundError (_path s)), s, w)
  ∧ (_encrypted s = None →
     encrypted s w = (Raise (FileNotFoundError (_path s)), s, w))
  ∧ (∀ header e, check_header header = Raise e →
       e = IndexError ∧ classify_header header = Ok false).
Proof.
  intros Hf. split; [by apply detect_encryption_absent|]. split.
  - intros He. rewrite (encrypted_unknown _ _ He).
    by rewrite (detect_encryption_absent _ _ Hf).
  - intros header e H. pose proof (check_header_raises _ _ H) as ->.
    split; [done|]. by apply classify_header_index_error.
Qed.

Lemma detect_encryption_open_error_witness :
  files Demo.w0 !! _path (Secret_init "secrets/missing" ∅) = None
  ∧ encrypted (Secret_init "secrets/missing" ∅) Demo.w0
    = (Raise (FileNotFoundError "secrets/missing"),
       Secret_init "secrets/missing" ∅, Demo.w0).
Proof.
  split; [reflexivity|].
  exact (proj1 (proj2
    (detect_encryption_open_error (Secret_init "secrets/missing" ∅) Demo.w0
       eq_refl)) eq_refl).
Defined.

(** C3: when the engine reports failure during [encrypt] or [decrypt], the
    temporary file is removed, the call raises [SecretError] with the
    engine's status text, and the file map is the one before the call: the
    target holds the same file as before and the temporary name is free
    again. *)
Theorem engine_failure_keeps_target (gpg : GPG) (s : Secret) (w : world)
    (f : file) (tmp : string) (rest : list string) :
  files w !! _path s = Some f →
  mkstemp_from (files w) (os_path_split (_path s)).1
    (os_path_split (_path s)).2 (temp_names w) = Some (tmp, rest) →
  ((encrypted s w).1.1 = Ok false →
   ok (encrypt_file gpg (content f) (_keys s)) = false →
   (encrypt gpg s w).1.1
     = Raise (SecretError (_path s)
                (status (encrypt_file gpg (content f) (_keys s))))
   ∧ files (encrypt gpg s w).2 = files w
   ∧ files (encrypt gpg s w).2 !! _path s = Some f
   ∧ files (encrypt gpg s w).2 !! tmp = None
   ∧ trace (encrypt gpg s w).2
     = Remove tmp :: EncryptFile tmp (_keys s) :: trace w)
  ∧ (ok (decrypt_file gpg (content f)) = false →
     (decrypt gpg s w).1.1
       = Raise (SecretError (_path s) (status (decrypt_file gpg (content f))))
     ∧ files (decrypt gpg s w).2 = files w
     ∧ files (decrypt gpg s w).2 !! _path s = Some f
     ∧ files (decrypt gpg s w).2 !! tmp = None
     ∧ trace (decrypt gpg s w).2 = Remove tmp :: DecryptFile tmp :: trace w).
Proof.
  intros Hf Ht. pose proof (mkstemp_from_fresh _ _ _ _ _ _ Ht) as Hfresh.
  split.
  - intros He Hok.
    destruct (encrypted s w) as [[r s1] w1] eqn:E. cbn in He. subst r.
    rewrite (encrypt_after_flag gpg _ _ _ _ _ E).
    apply encrypted_ok_inv in E as [-> ->].
    rewrite (encrypt_plaintext gpg (with_encrypted (Some false) s) w f tmp rest
               eq_refl Hf Ht).
    cbn [with_encrypted _keys _path]. rewrite Hok. by cbn.
  - intros Hok. rewrite (decrypt_present gpg s w f tmp rest Hf Ht), Hok. by cbn.
Qed.

Lemma engine_failure_keeps_target_witness :
  let s := Secret_init "secrets/db.env" {[ "nobody" ]} in
  ((encrypt Demo.gpg s Demo.w0).1.1
     = Raise (SecretError "secrets/db.env" "invalid recipient")
   ∧ files (encrypt Demo.gpg s Demo.w0).2 !! "secrets/db.env"
     = Some Demo.plain_file)
  ∧ ((decrypt Demo.gpg s Demo.w0).1.1
       = Raise (SecretError "secrets/db.env" "decryption failed")
     ∧ files (decrypt Demo.gpg s Demo.w0).2 !! "secrets/db.env"
       = Some Demo.plain_file).
Proof.
  intros s.
  pose proof (engine_failure_keeps_target Demo.gpg s Demo.w0 Demo.plain_file
                "secrets/db.envk3x9" ["p0q1"; "zz42"] eq_refl eq_refl)
    as [Henc Hdec].
  split.
  - destruct (Henc eq_refl eq_refl) as (Hr & _ & Ht & _). split; [exact Hr|exact Ht].
  - destruct (Hdec eq_refl) as (Hr & _ & Ht & _). split; [exact Hr|exact Ht].
Defined.

(** C7, as stated, fails: [encrypt] and [decrypt] do not return the flag to
    the unknown state; a successful [encrypt] leaves it at encrypted. *)
Lemma flag_not_invalidated_counterexample :
  ((encrypt Demo.gpg Demo.by_fingerprint Demo.w0).1.1 = Ok ()
   ∧ _encrypted (encrypt Demo.gpg Demo.by_fingerprint Demo.w0).1.2 = Some true)
  ∧ ¬ (∀ (gpg : GPG) (s : Secret) (w : world),
         _encrypted (encrypt gpg s w).1.2 = None
         ∧ _encrypted (decrypt gpg s w).1.2 = None).
Proof.
  split; [split; compute_done|]. intros H.
  destruct (H Demo.gpg Demo.by_fingerprint Demo.w0) as [Henc _].
  refute_by_computation Henc.
Qed.

(** C7 (amended): the flag is unknown, encrypted or plaintext.  The first
    read of the property fills it with what detection answers and later
    reads return it as it is.  An [encrypt] that returns leaves it at
    encrypted and a [decrypt] that returns leaves it at plaintext; a
    [decrypt] that raises leaves it as it was; and neither call makes a
    known flag unknown. *)
Theorem encrypted_flag_lifecycle (gpg : GPG) (s : Secret) (w : world) :
  (∀ f, _encrypted s = None → files w !! _path s = Some f →
        ∃ b, classify_header (read f 32) = Ok b
             ∧ encrypted s w = (Ok b, with_encrypted (Some b) s, w))
  ∧ (∀ b, _encrypted s = Some b → encrypted s w = (Ok b, s, w))
  ∧ ((encrypt gpg s w).1.1 = Ok () →
     _encrypted (encrypt gpg s w).1.2 = Some true)
  ∧ ((decrypt gpg s w).1.1 = Ok () →
     _encrypted (decrypt gpg s w).1.2 = Some false)
  ∧ (∀ e, (decrypt gpg s w).1.1 = Raise e →
     _encrypted (decrypt gpg s w).1.2 = _encrypted s)
  ∧ (is_Some (_encrypted s) →
     is_Some (_encrypted (encrypt gpg s w).1.2)
     ∧ is_Some (_encrypted (decrypt gpg s w).1.2)).
Proof.
  pose proof (encrypt_flag gpg s w) as Henc.
  pose proof (decrypt_flag gpg s w) as Hdec.
  destruct (encrypt gpg s w) as [[re se] we].
  destruct (decrypt gpg s w) as [[rd sd] wd]. cbn [fst snd].
  repeat split.
  - intros f He Hf. rewrite (encrypted_unknown _ _ He).
    rewrite (detect_encryption_present _ _ _ Hf).
    destruct (classify_header_total (read f 32)) as [b Hb].
    exists b. by rewrite Hb.
  - intros b. apply encrypted_cached.
  - by intros ->.
  - by intros ->.
  - by intros e ->.
  - destruct re; [by rewrite Henc|]. destruct Henc as [-> | ->]; eauto.
  - destruct rd; rewrite Hdec; eauto.
Qed.

Lemma encrypted_flag_lifecycle_witness :
  (encrypt Demo.gpg Demo.by_fingerprint Demo.w0).1.1 = Ok ()
  ∧ _encrypted (encrypt Demo.gpg Demo.by_fingerprint Demo.w0).1.2 = Some true.
Proof.
  assert ((encrypt Demo.gpg Demo.by_fingerprint Demo.w0).1.1 = Ok ()) as H
    by compute_done.
  split; [exact H|].
  exact (proj1 (proj2 (proj2
    (encrypted_flag_lifecycle Demo.gpg Demo.by_fingerprint Demo.w0))) H).
Defined.

(** ** [update_keys] *)

Section UpdateKeys.

Variable gpg : GPG.

Lemma update_keys_after_flag s w b s1 w1 :
  encrypted s w = (Ok b, s1, w1) → update_keys gpg s w = update_keys gpg s1 w1.
Proof.
  intros H. pose proof (encrypted_ok_inv _ _ _ _ _ H) as [-> ->].
  unfold update_keys at 1. rewrite (bindM_ok _ _ _ _ _ _ _ H).
  unfold update_keys.
  by rewrite (bindM_ok _ _ _ _ _ _ _
                (encrypted_cached (with_encrypted (Some b) s) w b eq_refl)).
Qed.

Lemma update_keys_flag_raise s w e s1 w1 :
  encrypted s w = (Raise e, s1, w1) → update_keys gpg s w = (Raise e, s, w).
Proof.
  intros H. pose proof (encrypted_raise_inv _ _ _ _ _ H) as (-> & -> & _).
  unfold update_keys. by rewrite (bindM_raise _ _ _ _ _ _ _ H).
Qed.

(** [update_keys] on a secret whose flag is known. *)
Lemma update_keys_known s w enc :
  _encrypted s = Some enc →
  update_keys gpg s w =
    match (if enc then current_recipients gpg w (_path s) else Ok ∅) with
    | Raise e => (Raise e, s, w)
    | Ok current_keys =>
        if bool_decide (current_keys ≠ _keys s) then
          if enc then
            match decrypt gpg s w with
            | (Ok _, s', w') => encrypt gpg s' w'
            | (Raise e, s', w') => (Raise e, s', w')
            end
          else encrypt gpg s w
        else (Ok (), s, w)
    end.
Proof.
  intros He. unfold update_keys.
  rewrite (bindM_ok _ _ _ _ _ _ _ (encrypted_cached _ _ _ He)).
  destruct enc.
  - unfold current_recipients, recipients_of, _list_packets, open_rb.
    run_monad. destruct (files w !! _path s) as [f|]; [|done].
    cbn [Py.bind result_bind content].
    destruct (handle_all _ _) as [packets|e]; [|done].
    cbn [Py.bind result_bind _get_master_keys].
    case_bool_decide; [|done].
    unfold encrypted. run_monad. rewrite He. run_monad.
    by destruct (decrypt gpg s w) as [[[[]|e] s'] w'].
  - run_monad. case_bool_decide; [|done].
    unfold encrypted at 1. run_monad. by rewrite He.
Qed.



End UpdateKeys.





(** ** [KeyManager] *)

Lemma set_union_star_ok (args : list (gset string)) u :
  set_union_star args = Ok u → args ≠ [] ∧ u = ⋃ args.
Proof. destruct args as [|s rest]; [done|]. by intros [= <-]. Qed.

(** A table is produced exactly from a configuration that declares an
    alias, and it is the declared table with [all] set to the union of the
    declared entries. *)
Lemma KeyManager_init_ok config t :
  KeyManager_init config = Ok t →
  config ≠ ∅
  ∧ t = <["all" := union_of_entries (declared_aliases config)]>
          (declared_aliases config).
Proof.
  unfold KeyManager_init.
  destruct (set_union_star _) as [u|e] eqn:E; [|done].
  cbn. intros [= <-]. apply set_union_star_ok in E as [Hne ->].
  split; [|done]. intros ->. apply Hne.
  unfold declared_aliases. by rewrite fmap_empty, map_to_list_empty.
Qed.

Lemma KeyManager_init_empty :
  KeyManager_init ∅
  = Raise (TypeError "unbound method set.union() needs an argument").
Proof.
  unfold KeyManager_init, declared_aliases.
  by rewrite fmap_empty, map_to_list_empty.
Qed.

Lemma union_of_entries_delete (m : gmap string (gset string)) k :
  union_of_entries m = default ∅ (m !! k) ∪ union_of_entries (delete k m).
Proof.
  unfold union_of_entries. destruct (m !! k) as [x|] eqn:E; cbn.
  - rewrite <-(map_to_list_delete m k x E). by rewrite fmap_cons.
  - rewrite delete_id by done. by rewrite (left_id_L ∅ (∪)).
Qed.

(** C1, as stated, fails: a configured alias named [all] adds its own keys
    to the synthesized entry, which then exceeds the union of the others. *)
Lemma all_alias_counterexample :
  (KeyManager_init {[ "all" := KeyId "X" ]} = Ok {[ "all" := {[ "X" ]} ]}
   ∧ union_of_entries (delete "all" {[ "all" := {[ "X" ]} ]}) = ∅)
  ∧ ¬ (∀ config t, KeyManager_init config = Ok t → all_is_union_of_others t).
Proof.
  assert (KeyManager_init {[ "all" := KeyId "X" ]}
          = Ok {[ "all" := {[ "X" ]} ]}) as E by compute_done.
  assert (union_of_entries (delete "all" {[ "all" := {[ "X" ]} ]}) = ∅) as Hu.
  { unfold union_of_entries. by rewrite delete_singleton_eq, map_to_list_empty. }
  split; [split; [exact E|exact Hu]|]. intros H. apply H in E.
  unfold all_is_union_of_others in E.
  rewrite Hu, lookup_singleton_eq in E. apply (inj Some) in E.
  by apply (non_empty_singleton_L (C := gset string)) in E.
Qed.

(** C1 (amended): in a constructed table the entry [all] is the union of
    every other entry together with the keys the configuration declares
    under [all], if it declares that alias; when it does not, [all] is the
    union of every other entry. *)
Theorem all_alias_union (config : gmap string key_config)
    (t : gmap string (gset string)) :
  KeyManager_init config = Ok t →
  t !! "all"
  = Some (default ∅ (declared_aliases config !! "all")
          ∪ union_of_entries (delete "all" t))
  ∧ (config !! "all" = None → all_is_union_of_others t).
Proof.
  intros H. apply KeyManager_init_ok in H as [_ ->].
  assert (∀ u, delete "all" (<["all" := u]> (declared_aliases config))
               = delete "all" (declared_aliases config)) as Hdel
    by (intros u; apply delete_insert_eq).
  split.
  - rewrite lookup_insert_eq, Hdel. f_equal. apply union_of_entries_delete.
  - intros Hno. unfold all_is_union_of_others.
    rewrite lookup_insert_eq, Hdel. f_equal.
    rewrite (union_of_entries_delete _ "all").
    unfold declared_aliases at 1. rewrite lookup_fmap, Hno. cbn.
    by rewrite (left_id_L ∅ (∪)).
Qed.

Lemma all_alias_union_witness :
  let config : gmap string key_config :=
    {[ "ops" := KeyIds ["A"; "B"]; "master" := KeyId "M" ]} in
  ∃ t, KeyManager_init config = Ok t ∧ all_is_union_of_others t.
Proof.
  intros config.
  exists (<["all" := union_of_entries (declared_aliases config)]>
            (declared_aliases config)).
  assert (KeyManager_init config
          = Ok (<["all" := union_of_entries (declared_aliases config)]>
                  (declared_aliases config))) as H by compute_done.
  split; [exact H|].
  exact (proj2 (all_alias_union config _ H) eq_refl).
Defined.

(** C9, as stated, fails: a configuration whose only alias is [all] yields a
    table whose only entry is the synthesized [all]. *)
Lemma only_all_counterexample :
  (KeyManager_init {[ "all" := KeyId "X" ]} = Ok {[ "all" := {[ "X" ]} ]}
   ∧ dom ({[ "all" := {[ "X" ]} ]} : gmap string (gset string)) = {[ "all" ]})
  ∧ ¬ (∀ config t, KeyManager_init config = Ok t →
         dom t ≠ {[ "all" ]} ∧ t ≠ ∅).
Proof.
  assert (KeyManager_init {[ "all" := KeyId "X" ]}
          = Ok {[ "all" := {[ "X" ]} ]}) as E by compute_done.
  split; [split; [exact E|apply dom_singleton_L]|]. intros H.
  destruct (H _ _ E) as [Hdom _].
  apply Hdom. apply dom_singleton_L.
Qed.

(** C9 (amended): constructing the table from a configuration that declares
    no alias raises [TypeError] while synthesizing [all]; a constructed
    table always comes from a configuration that declares an alias and
    always has the entry [all], so it is never empty; and a table whose only
    entry is [all] comes only from a configuration whose only alias is
    [all]. *)
Theorem KeyManager_init_no_aliases :
  KeyManager_init ∅
  = Raise (TypeError "unbound method set.union() needs an argument")
  ∧ (∀ config t, KeyManager_init config = Ok t →
       config ≠ ∅ ∧ t ≠ ∅ ∧ is_Some (t !! "all")
       ∧ (dom t = {[ "all" ]} → dom config = {[ "all" ]})).
Proof.
  split; [apply KeyManager_init_empty|].
  intros config t H. apply KeyManager_init_ok in H as [Hne ->].
  split; [done|]. split; [apply insert_non_empty|].
  split; [by rewrite lookup_insert_eq|].
  rewrite dom_insert_L. unfold declared_aliases. rewrite dom_fmap_L.
  intros Hdom.
  assert (dom config ≠ ∅) as Hd by (by intros ?%dom_empty_inv_L).
  assert (dom config ⊆ {[ "all" ]}) as Hsub
    by (rewrite <-Hdom; apply union_subseteq_r).
  apply set_choose_L in Hd as [y Hy].
  pose proof (Hsub y Hy) as ->%elem_of_singleton.
  apply set_eq. intros x. split; [apply Hsub|].
  by intros ->%elem_of_singleton.
Qed.

Lemma KeyManager_init_no_aliases_witness :
  KeyManager_init {[ "master" := KeyId "M" ]}
  = Ok {[ "all" := {[ "M" ]}; "master" := {[ "M" ]} ]}
  ∧ ({[ "all" := {[ "M" ]}; "master" := {[ "M" ]} ]}
     : gmap string (gset string)) ≠ ∅.
Proof.
  assert (KeyManager_init {[ "master" := KeyId "M" ]}
          = Ok {[ "all" := {[ "M" ]}; "master" := {[ "M" ]} ]}) as H
    by compute_done.
  split; [exact H|].
  exact (proj1 (proj2 (proj2 KeyManager_init_no_aliases _ _ H))).
Defined.





(** ** [_get_master_keys] *)






(** ** [KeyGenerator.generate] *)

Lemma string_length_append (a c : string) :
  String.length (a ++ c) = (String.length a + String.length c)%nat.
Proof. induction a as [|x a IH]; simpl; [done|]. by rewrite IH. Qed.

Lemma append_inj_prefix (a b c d : string) :
  String.length a = String.length b → a ++ c = b ++ d → a = b.
Proof.
  revert b. induction a as [|x a IH]; intros [|y b]; cbn; try done.
  intros [= Hlen] [= -> H]. f_equal. by apply IH.
Qed.

Lemma append_inj_suffix (a b c : string) : a ++ c = b ++ c → a = b.
Proof.
  intros H. apply (append_inj_prefix a b c c); [|done].
  pose proof (string_length_append a c) as Ha.
  pose proof (string_length_append b c) as Hb. rewrite H in Ha. lia.
Qed.

(** C8, as stated, fails: the email is built from the lower-cased name. *)
Lemma generate_email_counterexample :
  name_email (generate_request Demo.generator "Alice") = "alice@example.org"
  ∧ ¬ (∀ (self : KeyGenerator) (name : string),
         name_email (generate_request self name)
         = name ++ "@" ++ _domain self).
Proof.
  split; [reflexivity|]. intros H.
  specialize (H Demo.generator "Alice"). discriminate H.
Qed.

(** C8 (amended): for every name, [generate] builds a key-generation
    request with an empty passphrase and the email [lower(name)@domain],
    which is [name@domain] exactly for a name that [lower] leaves as it is;
    the engine is given that request after a [%no-protection] line, and
    when it reports no key [generate] raises [SecretKeyError], otherwise it
    returns the key. *)
Theorem generate_request_and_failure (gpg : GPG) (self : KeyGenerator)
    (name : string) (key_path : option string) (w : world) :
  passphrase (generate_request self name) = ""
  ∧ name_email (generate_request self name)
    = str_lower name ++ "@" ++ _domain self
  ∧ (name_email (generate_request self name) = name ++ "@" ++ _domain self
     ↔ str_lower name = name)
  ∧ let key := gen_key gpg ("%no-protection" ++ newline
                            ++ gen_key_input gpg (generate_request self name)) in
    (GenKey_bool key = false →
     generate gpg self name key_path w
     = (Raise (SecretKeyError ("Failed to generate key: " ++ GenKey_str key)), w))
    ∧ (GenKey_bool key = true →
       (generate gpg self name key_path w).1 = Ok key).
Proof.
  split; [done|]. split; [done|]. split.
  - cbn [name_email generate_request]. split.
    + apply append_inj_suffix.
    + by intros ->.
  - intros key. unfold generate. fold (generate_key_input gpg self name).
    unfold generate_key_input. fold key.
    split; intros ->; done.
Qed.

Lemma generate_request_and_failure_witness :
  name_email (generate_request Demo.generator "Alice") = "alice@example.org"
  ∧ generate Demo.gpg Demo.generator "Alice" None Demo.w0
    = (Raise (SecretKeyError "Failed to generate key: "), Demo.w0).
Proof.
  pose proof (generate_request_and_failure Demo.gpg Demo.generator "Alice"
                None Demo.w0)
    as (_ & Hemail & _ & Hfail & _).
  split; [exact Hemail|]. exact (Hfail eq_refl).
Defined.

(** * Further properties of the module *)

(** ** Detection in closed form *)

Lemma classify_header_closed_form (h : bytes) :
  classify_header h = Ok (looks_encrypted h).
Proof.
  destruct h as [|b rest]; [done|].
  destruct b; try reflexivity;
    unfold classify_header, check_header, looks_encrypted, getitem; simpl;
    match goal with
    | |- context [rest !! ?i] =>
        destruct (rest !! i) as [c|]; [destruct c|]; reflexivity
    end.
Qed.

Lemma looks_encrypted_take (c : bytes) :
  looks_encrypted (take 32 c) = looks_encrypted c.
Proof.
  unfold looks_encrypted. by rewrite !lookup_take_lt by lia.
Qed.

(** X1: on a file that can be opened, [_detect_encryption] answers exactly
    [looks_encrypted] of the file's bytes: it returns [True] when the file
    starts with [0xC1], or with [0x84], [0x85], [0x86] or [0x87] and has the
    byte 3 at offset 2, 3, 5 or 1 respectively, and [False] for every other
    content; the object and the world are left as they were. *)
Theorem detect_encryption_closed_form (s : Secret) (w : world) (f : file) :
  files w !! _path s = Some f →
  _detect_encryption s w = (Ok (looks_encrypted (content f)), s, w).
Proof.
  intros Hf. rewrite (detect_encryption_present _ _ _ Hf). unfold read.
  by rewrite classify_header_closed_form, looks_encrypted_take.
Qed.

Lemma detect_encryption_closed_form_witness :
  files Demo.w0 !! _path Demo.by_fingerprint = Some Demo.plain_file
  ∧ _detect_encryption Demo.by_fingerprint Demo.w0
    = (Ok false, Demo.by_fingerprint, Demo.w0).
Proof.
  assert (files Demo.w0 !! _path Demo.by_fingerprint = Some Demo.plain_file)
    as H by compute_done.
  split; [exact H|].
  exact (detect_encryption_closed_form Demo.by_fingerprint Demo.w0
           Demo.plain_file H).
Defined.

(** ** [ListPackets.handle_status] over a status stream *)





(** ** [KeyManager.lookup_alias] on a constructed table *)

Lemma constructed_lookup config t alias :
  KeyManager_init config = Ok t →
  t !! alias
  = if decide (alias = "all")
    then Some (union_of_entries (declared_aliases config))
    else (λ kc, list_to_set (wrap_string_list kc)) <$> config !! alias.
Proof.
  intros H. apply KeyManager_init_ok in H as [_ ->].
  case_decide as Ha.
  - subst. by rewrite lookup_insert_eq.
  - rewrite lookup_insert_ne by done. unfold declared_aliases.
    by rewrite lookup_fmap.
Qed.

(** X3: in a constructed table, looking up a name that is neither [all] nor
    declared in the configuration raises [SecretKeyError] with the message
    [unknown key alias: name]; it never answers an empty set.  Every other
    lookup returns a set. *)
Theorem lookup_alias_unknown (config : gmap string key_config)
    (t : gmap string (gset string)) (alias : string) :
  KeyManager_init config = Ok t →
  (lookup_alias t alias = Raise (SecretKeyError ("unknown key alias: " ++ alias))
   ↔ alias ≠ "all" ∧ config !! alias = None)
  ∧ ((∃ ks, lookup_alias t alias = Ok ks)
     ↔ alias = "all" ∨ is_Some (config !! alias)).
Proof.
  intros H. unfold lookup_alias. rewrite (constructed_lookup _ _ alias H).
  case_decide as Ha.
  - split.
    + split; [done|]. by intros [? _].
    + split; [by left|]. intros _. by eexists.
  - destruct (config !! alias) as [kc|]; cbn.
    + split.
      * split; [done|]. by intros [_ ?].
      * split; [intros _; right; by eexists|]. intros _. by eexists.
    + split.
      * split; [done|]. by intros _.
      * split; [by intros [? ?]|]. intros [?|[? ?]]; done.
Qed.

Lemma lookup_alias_unknown_witness :
  KeyManager_init {[ "master" := KeyId "M" ]}
  = Ok {[ "all" := {[ "M" ]}; "master" := {[ "M" ]} ]}
  ∧ lookup_alias {[ "all" := {[ "M" ]}; "master" := {[ "M" ]} ]} "ops"
    = Raise (SecretKeyError "unknown key alias: ops").
Proof.
  assert (KeyManager_init {[ "master" := KeyId "M" ]}
          = Ok {[ "all" := {[ "M" ]}; "master" := {[ "M" ]} ]}) as H
    by compute_done.
  split; [exact H|].
  apply (proj1 (lookup_alias_unknown _ _ "ops" H)).
  split; [discriminate|compute_done].
Defined.

Lemma constructed_subset_all config t alias ks :
  KeyManager_init config = Ok t →
  t !! alias = Some ks →
  ∃ u, t !! "all" = Some u ∧ ks ⊆ u.
Proof.
  intros H. exists (union_of_entries (declared_aliases config)).
  rewrite (constructed_lookup _ _ "all" H), decide_True by done.
  split; [done|]. revert H0. rewrite (constructed_lookup _ _ alias H).
  case_decide as Ha; [by intros [= <-]|].
  destruct (config !! alias) as [kc|] eqn:Hc; cbn; [|done]. intros [= <-].
  unfold union_of_entries. intros x Hx. apply elem_of_union_list.
  exists (list_to_set (wrap_string_list kc)). split; [|done].
  apply list_elem_of_fmap. exists (alias, list_to_set (wrap_string_list kc)).
  split; [done|]. apply elem_of_map_to_list. unfold declared_aliases.
  by rewrite lookup_fmap, Hc.
Qed.

(** X4: in a constructed table the set of [all] contains the set of every
    alias that can be looked up. *)
Theorem lookup_all_contains_every_alias (config : gmap string key_config)
    (t : gmap string (gset string)) :
  KeyManager_init config = Ok t →
  ∃ u, lookup_alias t "all" = Ok u
       ∧ ∀ alias ks, lookup_alias t alias = Ok ks → ks ⊆ u.
Proof.
  intros H. exists (union_of_entries (declared_aliases config)).
  unfold lookup_alias. rewrite (constructed_lookup _ _ "all" H).
  rewrite decide_True by done. split; [done|].
  intros alias ks Hks.
  destruct (t !! alias) as [ks'|] eqn:Ht; [|done]. injection Hks as ->.
  destruct (constructed_subset_all _ _ _ _ H Ht) as (u & Hu & Hsub).
  rewrite (constructed_lookup _ _ "all" H), decide_True in Hu by done.
  by injection Hu as <-.
Qed.

Lemma lookup_all_contains_every_alias_witness :
  ∃ u, lookup_alias {[ "all" := {[ "M" ]}; "master" := {[ "M" ]} ]} "all" = Ok u
       ∧ ({[ "M" ]} : gset string) ⊆ u.
Proof.
  assert (KeyManager_init {[ "master" := KeyId "M" ]}
          = Ok {[ "all" := {[ "M" ]}; "master" := {[ "M" ]} ]}) as H
    by compute_done.
  destruct (lookup_all_contains_every_alias _ _ H) as (u & Hu & Hsub).
  exists u. split; [exact Hu|]. apply (Hsub "master"). compute_done.
Defined.

(** ** What a successful [encrypt] or [decrypt] leaves behind *)

Lemma installed_files w path tmp rest ev out :
  files (installed w path tmp rest ev out)
  = <[path := File out (Z.land rw_all (Z.lnot (umask w)))]> (files w).
Proof. done. Qed.

(** X5: when the engine succeeds, [encrypt] (on a secret read as plaintext)
    and [decrypt] put the engine's output at the secret's path with mode
    [0o666 & ~umask], whatever the mode of the file before; every other path
    is as before, so the temporary file is gone; and the flag is encrypted,
    respectively plaintext. *)
Theorem success_replaces_target (gpg : GPG) (s : Secret) (w : world)
    (f : file) (tmp : string) (rest : list string) :
  files w !! _path s = Some f →
  mkstemp_from (files w) (os_path_split (_path s)).1
    (os_path_split (_path s)).2 (temp_names w) = Some (tmp, rest) →
  ((encrypted s w).1.1 = Ok false →
   ok (encrypt_file gpg (content f) (_keys s)) = true →
   (encrypt gpg s w).1.1 = Ok ()
   ∧ _encrypted (encrypt gpg s w).1.2 = Some true
   ∧ files (encrypt gpg s w).2
     = <[_path s := File (output (encrypt_file gpg (content f) (_keys s)))
                      (Z.land rw_all (Z.lnot (umask w)))]> (files w))
  ∧ (ok (decrypt_file gpg (content f)) = true →
     (decrypt gpg s w).1.1 = Ok ()
     ∧ _encrypted (decrypt gpg s w).1.2 = Some false
     ∧ files (decrypt gpg s w).2
       = <[_path s := File (output (decrypt_file gpg (content f)))
                        (Z.land rw_all (Z.lnot (umask w)))]> (files w)).
Proof.
  intros Hf Ht. split.
  - intros He Hok.
    destruct (encrypted s w) as [[r s1] w1] eqn:E. cbn in He. subst r.
    rewrite (encrypt_after_flag gpg _ _ _ _ _ E).
    apply encrypted_ok_inv in E as [-> ->].
    rewrite (encrypt_plaintext gpg (with_encrypted (Some false) s) w f tmp rest
               eq_refl Hf Ht).
    cbn [with_encrypted _keys _path]. rewrite Hok. by cbn.
  - intros Hok. rewrite (decrypt_present gpg s w f tmp rest Hf Ht), Hok. by cbn.
Qed.

Lemma success_replaces_target_witness :
  (encrypt Demo.gpg Demo.by_fingerprint Demo.w0).1.1 = Ok ()
  ∧ files (encrypt Demo.gpg Demo.by_fingerprint Demo.w0).2
    = {[ "secrets/db.env" := File [x84; x02; x03; x00; xd2; x68; x69] 0x1A4 ]}.
Proof.
  pose proof (success_replaces_target Demo.gpg Demo.by_fingerprint Demo.w0
                Demo.plain_file "secrets/db.envk3x9" ["p0q1"; "zz42"]) as H.
  destruct H as [Henc _]; [compute_done|compute_done|].
  destruct Henc as (Hr & _ & Hfiles); [compute_done|compute_done|].
  split; [exact Hr|]. rewrite Hfiles. compute_done.
Defined.

(** X6: [encrypt] followed by [decrypt], both returning, gives back the
    bytes the file had, provided the engine's decryption undoes its
    encryption to the required set.  The file's mode is then
    [0o666 & ~umask], not the mode it had; no other path has changed and the
    flag is plaintext. *)
Theorem encrypt_then_decrypt_restores (gpg : GPG) (s : Secret) (w : world)
    (f : file) :
  files w !! _path s = Some f →
  (encrypted s w).1.1 = Ok false →
  (∀ plain,
     ok (encrypt_file gpg plain (_keys s)) = true →
     ok (decrypt_file gpg (output (encrypt_file gpg plain (_keys s)))) = true →
     output (decrypt_file gpg (output (encrypt_file gpg plain (_keys s))))
     = plain) →
  (encrypt gpg s w).1.1 = Ok () →
  (decrypt gpg (encrypt gpg s w).1.2 (encrypt gpg s w).2).1.1 = Ok () →
  files (decrypt gpg (encrypt gpg s w).1.2 (encrypt gpg s w).2).2
  = <[_path s := File (content f) (Z.land rw_all (Z.lnot (umask w)))]> (files w)
  ∧ _encrypted (decrypt gpg (encrypt gpg s w).1.2 (encrypt gpg s w).2).1.2
    = Some false.
Proof.
  intros Hf He Hlaw.
  destruct (encrypted s w) as [[r s0] w0] eqn:E. cbn in He. subst r.
  rewrite (encrypt_after_flag gpg _ _ _ _ _ E).
  apply encrypted_ok_inv in E as [-> ->].
  destruct (encrypt gpg _ w) as [[[[]|e] s1] w1] eqn:E1; [|done]. intros _.
  apply encrypt_plaintext_ok_inv in E1
    as (f' & tmp & rest & Hf' & Hok & -> & ->); [|done].
  cbn [_path _keys with_encrypted] in Hf', Hok |- *.
  rewrite Hf in Hf'. injection Hf' as <-. cbn [fst snd].
  destruct (decrypt gpg _ _) as [[[[]|e] s2] w2] eqn:E2; [|done]. intros _.
  apply decrypt_ok_inv in E2 as (f2 & tmp2 & rest2 & Hf2 & Hok2 & -> & ->).
  cbn [_path with_encrypted] in Hf2 |- *.
  rewrite installed_files, lookup_insert_eq in Hf2. injection Hf2 as <-.
  cbn [content] in Hok2 |- *. split; [|done].
  unfold installed. cbn [files umask snd]. rewrite insert_insert_eq.
  by rewrite (Hlaw _ Hok Hok2).
Qed.

Lemma encrypt_then_decrypt_restores_witness :
  let first := encrypt Demo.gpg Demo.by_fingerprint Demo.w0 in
  first.1.1 = Ok ()
  ∧ files (decrypt Demo.gpg first.1.2 first.2).2
    = {[ "secrets/db.env" := File [x68; x69] 0x1A4 ]}.
Proof.
  intros first.
  assert (first.1.1 = Ok ()) as H by compute_done.
  split; [exact H|].
  assert (∀ plain,
            ok (encrypt_file Demo.gpg plain (_keys Demo.by_fingerprint)) = true →
            ok (decrypt_file Demo.gpg
                  (output (encrypt_file Demo.gpg plain
                             (_keys Demo.by_fingerprint)))) = true →
            output (decrypt_file Demo.gpg
                      (output (encrypt_file Demo.gpg plain
                                 (_keys Demo.by_fingerprint))))
            = plain) as Hlaw
    by (intros plain _ _; vm_compute; reflexivity).
  pose proof (encrypt_then_decrypt_restores Demo.gpg Demo.by_fingerprint
                Demo.w0 Demo.plain_file) as Hround.
  destruct Hround as [Hfiles _];
    [compute_done|compute_done|exact Hlaw|exact H|compute_done|].
  etrans; [exact Hfiles|]. compute_done.
Defined.

(** X7: when [update_keys] finds an encrypted file whose recipients differ
    from the required set, decrypts it, and the following encryption fails,
    it raises [SecretError] with the status of the failed encryption and the
    file at the secret's path is left holding the decrypted bytes, with the
    flag at plaintext. *)
Theorem update_keys_failure_leaves_plaintext (gpg : GPG) (s : Secret)
    (w : world) (f : file) (current : gset string)
    (tmp tmp' : string) (rest rest' : list string) :
  let plain := output (decrypt_file gpg (content f)) in
  let m := Z.land rw_all (Z.lnot (umask w)) in
  (encrypted s w).1.1 = Ok true →
  files w !! _path s = Some f →
  current_recipients gpg w (_path s) = Ok current →
  current ≠ _keys s →
  ok (decrypt_file gpg (content f)) = true →
  ok (encrypt_file gpg plain (_keys s)) = false →
  mkstemp_from (files w) (os_path_split (_path s)).1
    (os_path_split (_path s)).2 (temp_names w) = Some (tmp, rest) →
  mkstemp_from (<[_path s := File plain m]> (files w))
    (os_path_split (_path s)).1 (os_path_split (_path s)).2 rest
  = Some (tmp', rest') →
  (update_keys gpg s w).1.1
  = Raise (SecretError (_path s) (status (encrypt_file gpg plain (_keys s))))
  ∧ files (update_keys gpg s w).2 = <[_path s := File plain m]> (files w)
  ∧ _encrypted (update_keys gpg s w).1.2 = Some false.
Proof.
  intros plain m He Hf Hc Hne Hokd Hoke Ht Ht'.
  destruct (encrypted s w) as [[r s0] w0] eqn:E. cbn in He. subst r.
  rewrite (update_keys_after_flag gpg _ _ _ _ _ E).
  apply encrypted_ok_inv in E as [-> ->].
  rewrite (update_keys_known gpg (with_encrypted (Some true) s) w true eq_refl).
  cbn [_path _keys with_encrypted]. rewrite Hc.
  rewrite bool_decide_eq_true_2 by done.
  rewrite (decrypt_present gpg (with_encrypted (Some true) s) w f tmp rest Hf Ht).
  rewrite Hokd. cbn [_path _keys with_encrypted]. fold plain.
  rewrite (encrypt_plaintext gpg
             (with_encrypted (Some false) (with_encrypted (Some true) s))
             (installed w (_path s) tmp rest (DecryptFile tmp) plain)
             (File plain m) tmp' rest' eq_refl).
  - cbn [content _keys _path with_encrypted]. fold plain. rewrite Hoke. by cbn.
  - by rewrite installed_files, lookup_insert_eq.
  - exact Ht'.
Qed.

Lemma update_keys_failure_leaves_plaintext_witness :
  (update_keys Demo.gpg Demo_with_stranger Demo_w2).1.1
  = Raise (SecretError "secrets/db.env" "invalid recipient")
  ∧ files (update_keys Demo.gpg Demo_with_stranger Demo_w2).2
    = {[ "secrets/db.env" := File [x68; x69] 0x1A4 ]}.
Proof.
  pose proof (update_keys_failure_leaves_plaintext Demo.gpg Demo_with_stranger
                Demo_w2 Demo_bob_file {[ fingerprint Demo.bob ]}
                "secrets/db.envk3x9" "secrets/db.envp0q1"
                ["p0q1"; "zz42"] ["zz42"]) as H.
  cbv zeta in H.
  destruct H as (Hr & Hfiles & _);
    [compute_done|compute_done|compute_done|compute_done|compute_done
    |compute_done|compute_done|compute_done|].
  split; [exact Hr|]. etrans; [exact Hfiles|]. compute_done.
Defined.

(** ** Alias resolution *)

Lemma lookup_aliases_app al l1 l2 :
  lookup_aliases al (l1 ++ l2)%list
  = (s1 ← lookup_aliases al l1; s2 ← lookup_aliases al l2; Ok (s1 ++ s2)%list).
Proof.
  induction l1 as [|a l1 IH]; cbn [lookup_aliases app].
  - cbn. by destruct (lookup_aliases al l2).
  - destruct (lookup_alias al a) as [s|e]; [|done]. cbn. rewrite IH.
    destruct (lookup_aliases al l1) as [s1|e]; [|done]. cbn.
    by destruct (lookup_aliases al l2).
Qed.

(** The aliases of a list resolve exactly when each of them can be looked
    up, and then to the union of their sets. *)
Lemma lookup_aliases_ok al names sets :
  lookup_aliases al names = Ok sets ↔ Forall2 (λ a s, al !! a = Some s) names sets.
Proof.
  revert sets. induction names as [|a names IH]; intros sets; cbn.
  - split; [by intros [= <-]|by intros ->%Forall2_nil_inv_l].
  - unfold lookup_alias. destruct (al !! a) as [s|] eqn:Ha; cbn.
    + destruct (lookup_aliases al names) as [ss|e]; cbn.
      * split.
        -- intros [= <-]. constructor; [done|]. by apply IH.
        -- intros (s' & ss' & Hs & Hss & ->)%Forall2_cons_inv_l.
           apply IH in Hss. congruence.
      * split; [done|].
        intros (s' & ss' & Hs & Hss & ->)%Forall2_cons_inv_l.
        by apply IH in Hss.
    + split; [done|].
      intros (s' & ss' & Hs & Hss & ->)%Forall2_cons_inv_l. congruence.
Qed.

Lemma resolve_aliases_elem al names keys :
  resolve_aliases al names = Ok keys →
  names ≠ []
  ∧ (∀ a, a ∈ names → is_Some (al !! a))
  ∧ (∀ x, x ∈ keys ↔ ∃ a s, a ∈ names ∧ al !! a = Some s ∧ x ∈ s).
Proof.
  unfold resolve_aliases.
  destruct (lookup_aliases al names) as [sets|e] eqn:E; [|done]. cbn.
  intros [Hne ->]%set_union_star_ok. apply lookup_aliases_ok in E.
  split; [|split].
  - intros ->. by apply Forall2_nil_inv_l in E.
  - intros a Ha. apply list_elem_of_lookup in Ha as [i Hi].
    destruct (Forall2_lookup_l _ _ _ _ _ E Hi) as (s & _ & Hs). by eexists.
  - intros x. rewrite elem_of_union_list. split.
    + intros (s & Hs & Hx). apply list_elem_of_lookup in Hs as [i Hi].
      destruct (Forall2_lookup_r _ _ _ _ _ E Hi) as (a & Ha & Has).
      exists a, s. split; [|done]. apply list_elem_of_lookup. by eexists.
    + intros (a & s & Ha & Has & Hx). apply list_elem_of_lookup in Ha as [i Hi].
      destruct (Forall2_lookup_l _ _ _ _ _ E Hi) as (s' & Hs' & Has').
      exists s. split; [|done]. rewrite Has in Has'. injection Has' as <-.
      apply list_elem_of_lookup. by eexists.
Qed.

(** Resolution grows with the list of aliases. *)
Lemma resolve_aliases_mono al names1 names2 keys1 keys2 :
  names1 ⊆ names2 →
  resolve_aliases al names1 = Ok keys1 →
  resolve_aliases al names2 = Ok keys2 →
  keys1 ⊆ keys2.
Proof.
  intros Hsub (_ & _ & H1)%resolve_aliases_elem (_ & _ & H2)%resolve_aliases_elem.
  intros x. rewrite H1, H2. intros (a & s & Ha & Hs & Hx).
  exists a, s. split; [by apply Hsub|done].
Qed.

(** ** The entries of a tree and the sizes *)

Lemma tree_size_Attrs p k children :
  tree_size (Attrs p k children) = S (forest_size children).
Proof.
  cbn [tree_size]. f_equal. unfold forest_size.
  induction children as [|[n c] children IH]; [done|].
  cbn [sum_list_with snd]. by f_equal.
Qed.

Lemma tree_entries_Attrs inherited p k children :
  tree_entries inherited (Attrs p k children)
  = (p, (default [] k ++ inherited ++ ["master"])%list)
    :: forest_entries (default [] k ++ inherited ++ ["master"])%list children.
Proof.
  cbn [tree_entries]. f_equal. unfold forest_entries.
  induction children as [|[n c] children IH]; [done|].
  cbn [fmap list_fmap mjoin list_join snd]. by f_equal.
Qed.

Lemma node_size_child_data key_aliases cd :
  node_size (child_data key_aliases cd) = tree_size cd.
Proof. destruct cd; [done|]. by rewrite tree_size_Attrs. Qed.

Lemma node_entries_child_data key_aliases cd :
  node_entries (child_data key_aliases cd) = tree_entries key_aliases cd.
Proof.
  destruct cd as [p|p k children].
  - done.
  - rewrite tree_entries_Attrs. unfold node_entries, key_aliases_of.
    cbn [child_data n_path n_keys n_children default]. unfold id.
    by rewrite <-!app_assoc.
Qed.

Lemma queue_size_children key_aliases children :
  queue_size (child_data key_aliases <$> children.*2) = forest_size children.
Proof.
  unfold queue_size, forest_size.
  induction children as [|[n c] children IH]; [done|].
  cbn [fmap list_fmap sum_list_with snd].
  by rewrite node_size_child_data, <-IH.
Qed.

Lemma queue_entries_children key_aliases children :
  mjoin (node_entries <$> (child_data key_aliases <$> children.*2))
  = forest_entries key_aliases children.
Proof.
  unfold forest_entries. rewrite <-list_fmap_compose. f_equal.
  apply list_fmap_ext. intros _ c _. apply node_entries_child_data.
Qed.

Lemma queue_size_app q1 q2 :
  queue_size (q1 ++ q2) = (queue_size q1 + queue_size q2)%nat.
Proof. apply sum_list_with_app. Qed.

(** ** The parse loop *)

(** With fuel for every dict that will pass through the queue the loop
    comes to its end. *)
Lemma parse_loop_fuel fuel al q acc ps :
  (queue_size q ≤ fuel)%nat → is_Some (parse_loop fuel al q acc ps).
Proof.
  revert q acc ps. induction fuel as [|fuel IH]; intros q acc ps Hq.
  - destruct q as [|data q]; [by eexists|].
    unfold queue_size, node_size in Hq. cbn [sum_list_with] in Hq. lia.
  - destruct q as [|data q]; [by eexists|]. cbn [parse_loop].
    destruct (resolve_aliases al (key_aliases_of data)) as [keys|e];
      [|by eexists].
    destruct (recorded (n_path data) keys); apply IH;
      rewrite queue_size_app, queue_size_children;
      unfold queue_size in Hq |- *; cbn [sum_list_with] in Hq;
      unfold node_size in Hq at 1; lia.
Qed.

(** What a finished loop has recorded: the secrets of the entries of the
    queued dicts, in some order, each entry having resolved; and the path
    map is the old one with the new secrets written in the order they were
    appended. *)
Lemma parse_loop_ok fuel al q acc ps secrets ps' :
  parse_loop fuel al q acc ps = Some (Ok (secrets, ps')) →
  ∃ new,
    secrets = (acc ++ new)%list
    ∧ new ≡ₚ omap (entry_secret al) (mjoin (node_entries <$> q))
    ∧ Forall (λ e, ∃ keys, resolve_aliases al e.2 = Ok keys)
        (mjoin (node_entries <$> q))
    ∧ ps' = foldl record_secret ps new.
Proof.
  revert q acc ps. induction fuel as [|fuel IH]; intros q acc ps.
  - destruct q as [|data q]; [|done]. intros [= <- <-].
    exists []. by rewrite app_nil_r.
  - destruct q as [|data q].
    { intros [= <- <-]. exists []. by rewrite app_nil_r. }
    cbn [parse_loop].
    destruct (resolve_aliases al (key_aliases_of data)) as [keys|e] eqn:Hr;
      [|done].
    assert (mjoin (node_entries <$> (data :: q))
            ≡ₚ (n_path data, key_aliases_of data)
               :: mjoin (node_entries
                           <$> (q ++ (child_data (key_aliases_of data)
                                        <$> (n_children data).*2))%list))
      as Hperm.
    { cbn [fmap list_fmap mjoin list_join]. unfold node_entries at 1.
      rewrite fmap_app, join_app, queue_entries_children.
      cbn [app]. constructor. apply Permutation_app_comm. }
    destruct (recorded (n_path data) keys) eqn:Hrec; intros H;
      apply IH in H as (new & -> & Hnew & Hall & ->).
    + exists (Secret_init (default "" (n_path data)) keys :: new).
      split; [by rewrite <-app_assoc|]. split; [|split].
      * rewrite Hperm. cbn [omap list_omap]. unfold entry_secret at 1.
        cbn [fst snd]. rewrite Hr, Hrec. by constructor.
      * rewrite Hperm. constructor; [by eexists|done].
      * done.
    + exists new. split; [done|]. split; [|split].
      * rewrite Hperm. cbn [omap list_omap]. unfold entry_secret at 1.
        cbn [fst snd]. by rewrite Hr, Hrec.
      * rewrite Hperm. constructor; [by eexists|done].
      * done.
Qed.

Lemma resolve_aliases_raise al names e :
  names ≠ [] →
  resolve_aliases al names = Raise e →
  ∃ a, a ∈ names ∧ al !! a = None
       ∧ e = SecretKeyError ("unknown key alias: " ++ a).
Proof.
  intros Hne. unfold resolve_aliases.
  destruct (lookup_aliases al names) as [sets|e'] eqn:E; cbn.
  - destruct sets as [|s sets]; [|done].
    apply lookup_aliases_ok, Forall2_nil_inv_r in E. done.
  - intros [= ->]. clear Hne. induction names as [|a names IH]; [done|].
    cbn in E. unfold lookup_alias in E at 1.
    destruct (al !! a) as [s|] eqn:Ha; cbn in E.
    + destruct (lookup_aliases al names) as [ss|e'] eqn:E'; [done|].
      cbn in E. injection E as ->.
      destruct (IH eq_refl) as (a' & Ha' & Hnone & ->).
      exists a'. split; [by right|done].
    + injection E as <-. exists a. split; [by left|done].
Qed.

(** The secrets a loaded configuration holds, in terms of its tree. *)
Lemma SecretsConfig_init_ok config_path isdir cd cfg :
  SecretsConfig_init config_path isdir cd = Some (Ok cfg) →
  ∃ domain keys root,
    (cd_generate cd ≫= cfg_domain) = Some domain
    ∧ cd_keys cd = Some keys
    ∧ cd_secrets cd = Some root
    ∧ KeyManager_init keys = Ok (key_manager cfg)
    ∧ _secrets cfg ≡ₚ omap (entry_secret (key_manager cfg)) (node_entries root)
    ∧ Forall (λ e, ∃ ks, resolve_aliases (key_manager cfg) e.2 = Ok ks)
        (node_entries root)
    ∧ _path_secrets cfg = foldl record_secret ∅ (_secrets cfg).
Proof.
  unfold SecretsConfig_init, KeyGenerator_init.
  destruct (cd_generate cd) as [g|]; cbn [default mbind option_bind cfg_domain];
    unfold id; [|done].
  destruct (cfg_domain g) as [domain|]; [|done].
  destruct (cd_keys cd) as [keys|]; cbn [default]; unfold id;
    [|by rewrite KeyManager_init_empty].
  destruct (KeyManager_init keys) as [km|e] eqn:Hkm; [|done].
  destruct (cd_secrets cd) as [root|]; [|done].
  destruct (parse_loop _ km [root] [] ∅) as [[[secrets ps]|e]|] eqn:Hloop;
    [|done|done].
  intros [= <-]. cbn [key_manager _secrets _path_secrets].
  apply parse_loop_ok in Hloop as (new & -> & Hnew & Hall & ->).
  cbn [fmap list_fmap mjoin list_join] in Hnew, Hall.
  rewrite app_nil_r in Hnew, Hall.
  exists domain, keys, root. by rewrite app_nil_l.
Qed.

(** X8: loading the configuration always ends, and it succeeds only if the
    [generate] set gives a [domain], the [keys] set declares the alias
    [master], and a [secrets] tree is present.  Without a domain it raises
    [KeyError('domain')] whatever the rest holds; with a domain and aliases
    but no [master] alias it raises the [SecretKeyError] of an alias the
    root asks for and the table lacks. *)
Theorem SecretsConfig_init_requirements (config_path : string) (isdir : bool)
    (cd : ConfigData) :
  is_Some (SecretsConfig_init config_path isdir cd)
  ∧ ((cd_generate cd ≫= cfg_domain) = None →
     SecretsConfig_init config_path isdir cd = Some (Raise (KeyError "domain")))
  ∧ (∀ cfg, SecretsConfig_init config_path isdir cd = Some (Ok cfg) →
       is_Some (cd_generate cd ≫= cfg_domain)
       ∧ (∃ keys, cd_keys cd = Some keys ∧ is_Some (keys !! "master"))
       ∧ is_Some (cd_secrets cd))
  ∧ (∀ keys root,
       is_Some (cd_generate cd ≫= cfg_domain) →
       cd_keys cd = Some keys → keys ≠ ∅ → keys !! "master" = None →
       cd_secrets cd = Some root →
       ∃ alias, alias ∈ key_aliases_of root
                ∧ alias ≠ "all" ∧ keys !! alias = None
                ∧ SecretsConfig_init config_path isdir cd
                  = Some (Raise (SecretKeyError ("unknown key alias: " ++ alias)))).
Proof.
  split; [|split; [|split]].
  - unfold SecretsConfig_init.
    destruct (KeyGenerator_init _); [|by eexists].
    destruct (KeyManager_init _) as [km|]; [|by eexists].
    destruct (cd_secrets cd) as [root|]; [|by eexists].
    destruct (parse_loop_fuel (node_size root) km [root] [] ∅) as [r Hr].
    { unfold queue_size. cbn [sum_list_with]. lia. }
    rewrite Hr. destruct r as [[? ?]|]; by eexists.
  - unfold SecretsConfig_init, KeyGenerator_init.
    destruct (cd_generate cd) as [g|];
      cbn [default mbind option_bind cfg_domain]; unfold id.
    + by intros ->.
    + done.
  - intros cfg H.
    apply SecretsConfig_init_ok in H
      as (domain & keys & root & Hd & Hk & Hs & Hkm & _ & Hall & _).
    split; [by eexists|]. split; [|by eexists].
    exists keys. split; [done|].
    unfold node_entries in Hall. apply Forall_cons in Hall as [[ks Hks] _].
    cbn [snd] in Hks. apply resolve_aliases_elem in Hks as (_ & Hin & _).
    destruct (Hin "master") as [m Hm].
    { unfold key_aliases_of. apply elem_of_app. right. by left. }
    rewrite (constructed_lookup _ _ "master" Hkm) in Hm.
    rewrite decide_False in Hm by done.
    destruct (keys !! "master"); [by eexists|done].
  - intros keys root [domain Hd] Hk Hne Hmaster Hs.
    unfold SecretsConfig_init, KeyGenerator_init.
    destruct (cd_generate cd) as [g|]; cbn [mbind option_bind] in Hd; [|done].
    cbn [default]. unfold id. rewrite Hd, Hk. cbn [default]. unfold id.
    destruct (KeyManager_init keys) as [km|e] eqn:Hkm.
    2: { exfalso. unfold KeyManager_init in Hkm.
         destruct (set_union_star _) as [u|e'] eqn:Hu; [done|].
         destruct (map_to_list (declared_aliases keys)) as [|x l] eqn:Hl; [|done].
         apply map_to_list_empty_iff, fmap_empty_iff in Hl. done. }
    rewrite Hs. unfold node_size. cbn [parse_loop].
    destruct (resolve_aliases km (key_aliases_of root)) as [ks|e] eqn:Hr.
    + exfalso. apply resolve_aliases_elem in Hr as (_ & Hin & _).
      destruct (Hin "master") as [m Hm].
      { unfold key_aliases_of. apply elem_of_app. right. by left. }
      rewrite (constructed_lookup _ _ "master" Hkm) in Hm.
      rewrite decide_False, Hmaster in Hm by done. done.
    + apply resolve_aliases_raise in Hr as (a & Ha & Hnone & ->);
        [|unfold key_aliases_of; by destruct (default [] (n_keys root))].
      exists a. rewrite (constructed_lookup _ _ a Hkm) in Hnone.
      case_decide as Hall; [done|].
      split; [done|]. split; [done|]. split; [|done].
      by destruct (keys !! a).
Qed.

Lemma Demo_loaded :
  SecretsConfig_init "/etc/secrets" true Demo_config_data = Some (Ok Demo_config).
Proof. compute_done. Qed.

Lemma SecretsConfig_init_requirements_witness :
  (∃ cfg, SecretsConfig_init "/etc/secrets" true Demo_config_data = Some (Ok cfg))
  ∧ SecretsConfig_init "/etc/secrets" true Demo_no_master
    = Some (Raise (SecretKeyError "unknown key alias: master")).
Proof.
  split.
  - exists Demo_config. exact Demo_loaded.
  - destruct (proj2 (proj2 (proj2
      (SecretsConfig_init_requirements "/etc/secrets" true Demo_no_master)))
        (delete "master" Demo_keys) Demo_root)
      as (alias & Hin & _ & Hnone & ->);
      [by eexists|done|compute_done|apply lookup_delete_eq|done|].
    change (alias ∈ ["master"]) in Hin.
    apply list_elem_of_singleton in Hin as ->. done.
Defined.

(** Induction over a tree and the trees below it. *)
Lemma secret_tree_induction (P : secret_tree → Prop) :
  (∀ p, P (BarePath p)) →
  (∀ p k children, Forall (λ child, P child.2) children → P (Attrs p k children)) →
  ∀ t, P t.
Proof.
  intros Hbare Hattrs. fix IH 1. intros [p|p k children]; [apply Hbare|].
  apply Hattrs. induction children as [|[n c] children IHc]; constructor.
  - apply IH.
  - apply IHc.
Qed.

(** Every entry of a tree asks for [master] and for every alias inherited
    from above. *)
Lemma tree_entries_inherit t :
  ∀ inherited e, e ∈ tree_entries inherited t →
    "master" ∈ e.2 ∧ inherited ⊆ e.2.
Proof.
  induction t as [p|p k children IH] using secret_tree_induction;
    intros inherited e.
  - cbn. intros ->%list_elem_of_singleton. cbn. split.
    + apply elem_of_app. right. by left.
    + intros x Hx. apply elem_of_app. by left.
  - rewrite tree_entries_Attrs. intros [->|He]%elem_of_cons.
    + cbn. split.
      * rewrite !elem_of_app. right. right. by left.
      * intros x Hx. rewrite !elem_of_app. right. by left.
    + unfold forest_entries in He. apply list_elem_of_join in He as (l & He & Hl).
      apply list_elem_of_fmap in Hl as (c & -> & Hc).
      apply list_elem_of_fmap in Hc as ([n c'] & -> & Hc).
      rewrite Forall_forall in IH. destruct (IH _ Hc _ _ He) as [Hm Hsub].
      split; [done|]. intros x Hx. apply Hsub. rewrite !elem_of_app.
      right. by left.
Qed.

Lemma node_entries_inherit data e :
  e ∈ node_entries data → "master" ∈ e.2 ∧ key_aliases_of data ⊆ e.2.
Proof.
  unfold node_entries. intros [->|He]%elem_of_cons.
  - cbn. split; [|done]. unfold key_aliases_of. apply elem_of_app. right. by left.
  - unfold forest_entries in He. apply list_elem_of_join in He as (l & He & Hl).
    apply list_elem_of_fmap in Hl as (c & -> & Hc).
    by apply tree_entries_inherit in He.
Qed.

Lemma enqueued_entries data child e :
  enqueued_from data child → e ∈ node_entries child → e ∈ node_entries data.
Proof.
  intros (cd & Hcd & ->). rewrite node_entries_child_data. intros He.
  unfold node_entries. right. unfold forest_entries.
  apply list_elem_of_join. exists (tree_entries (key_aliases_of data) cd).
  split; [done|]. apply list_elem_of_fmap. by exists cd.
Qed.

Lemma reachable_entries data child e :
  rtc enqueued_from data child →
  e ∈ node_entries child → e ∈ node_entries data.
Proof.
  induction 1 as [|data mid child Hstep _ IH]; [done|].
  intros He. by eapply enqueued_entries, IH.
Qed.

Lemma node_entries_head data :
  (n_path data, key_aliases_of data) ∈ node_entries data.
Proof. by left. Qed.

(** A dict whose entry is resolved and recorded by the loop is among the
    loaded secrets. *)
Lemma loaded_entry_secret cfg (q : list node) e keys :
  _secrets cfg ≡ₚ omap (entry_secret (key_manager cfg)) (mjoin (node_entries <$> q)) →
  e ∈ mjoin (node_entries <$> q) →
  resolve_aliases (key_manager cfg) e.2 = Ok keys →
  recorded e.1 keys = true →
  Secret_init (default "" e.1) keys ∈ _secrets cfg.
Proof.
  intros Hperm He Hk Hrec. rewrite Hperm. apply list_elem_of_omap.
  exists e. split; [done|]. unfold entry_secret. by rewrite Hk, Hrec.
Qed.

(** X9: keys are inherited along the queue.  In a loaded configuration,
    take a dict [parent] the loop gets to from the root of [secrets] and a
    dict [child] it gets to from [parent], each step being what the loop
    enqueues.  The aliases of both resolve, the key set of [child] contains
    the key set of [parent], and each of the two that has a non-empty path
    and key set is among the loaded secrets with exactly that key set. *)
Theorem child_keys_contain_parent_keys (config_path : string) (isdir : bool)
    (cd : ConfigData) (cfg : SecretsConfig) (root parent child : node) :
  SecretsConfig_init config_path isdir cd = Some (Ok cfg) →
  cd_secrets cd = Some root →
  rtc enqueued_from root parent →
  rtc enqueued_from parent child →
  ∃ parent_keys keys,
    resolve_aliases (key_manager cfg) (key_aliases_of parent) = Ok parent_keys
    ∧ resolve_aliases (key_manager cfg) (key_aliases_of child) = Ok keys
    ∧ parent_keys ⊆ keys
    ∧ (recorded (n_path parent) parent_keys = true →
       Secret_init (default "" (n_path parent)) parent_keys ∈ _secrets cfg)
    ∧ (recorded (n_path child) keys = true →
       Secret_init (default "" (n_path child)) keys ∈ _secrets cfg).
Proof.
  intros Hinit Hroot Hparent Hchild.
  apply SecretsConfig_init_ok in Hinit
    as (_ & _ & root' & _ & _ & Hroot' & _ & Hperm & Hres & _).
  rewrite Hroot in Hroot'. injection Hroot' as <-.
  pose proof (node_entries_head parent) as Hp.
  pose proof (node_entries_head child) as Hc.
  pose proof (reachable_entries _ _ _ Hchild Hc) as Hcp.
  pose proof (reachable_entries _ _ _ Hparent Hp) as Hpr.
  pose proof (reachable_entries _ _ _ Hparent Hcp) as Hcr.
  rewrite Forall_forall in Hres.
  destruct (Hres _ Hpr) as [parent_keys Hpk].
  destruct (Hres _ Hcr) as [keys Hk]. cbn [snd] in Hpk, Hk.
  exists parent_keys, keys. split; [done|]. split; [done|].
  assert (_secrets cfg
          ≡ₚ omap (entry_secret (key_manager cfg))
               (mjoin (node_entries <$> [root]))) as Hperm'.
  { cbn [fmap list_fmap mjoin list_join]. by rewrite app_nil_r. }
  split; [|split].
  - apply node_entries_inherit in Hcp as [_ Hsub]. cbn [snd] in Hsub.
    by eapply resolve_aliases_mono.
  - intros Hrec.
    apply (loaded_entry_secret cfg [root] (n_path parent, key_aliases_of parent));
      [done| |done|done].
    cbn [fmap list_fmap mjoin list_join]. by rewrite app_nil_r.
  - intros Hrec.
    apply (loaded_entry_secret cfg [root] (n_path child, key_aliases_of child));
      [done| |done|done].
    cbn [fmap list_fmap mjoin list_join]. by rewrite app_nil_r.
Qed.

Lemma child_keys_contain_parent_keys_witness :
  let parent :=
    child_data (key_aliases_of Demo_root)
      (Attrs (Some "db.env") (Some ["ops"]) [("sub", BarePath "sub.env")]) in
  let child := child_data (key_aliases_of parent) (BarePath "sub.env") in
  ∃ parent_keys keys,
    resolve_aliases (key_manager Demo_config) (key_aliases_of parent)
    = Ok parent_keys
    ∧ resolve_aliases (key_manager Demo_config) (key_aliases_of child) = Ok keys
    ∧ parent_keys ⊆ keys
    ∧ Secret_init "sub.env" keys ∈ _secrets Demo_config.
Proof.
  intros parent child.
  assert (enqueued_from Demo_root parent) as H1.
  { eexists. split; [|reflexivity]. left. }
  assert (enqueued_from parent child) as H2.
  { eexists. split; [|reflexivity]. left. }
  destruct (child_keys_contain_parent_keys "/etc/secrets" true
              Demo_config_data Demo_config Demo_root parent child
              Demo_loaded eq_refl (rtc_once _ _ H1) (rtc_once _ _ H2))
    as (parent_keys & keys & Hp & Hk & Hsub & _ & Hc).
  exists parent_keys, keys. split; [exact Hp|]. split; [exact Hk|].
  split; [exact Hsub|]. apply Hc.
  assert (resolve_aliases (key_manager Demo_config) (key_aliases_of child)
          = Ok {[ "M"; "A"; "B" ]}) as Hk' by compute_done.
  rewrite Hk' in Hk. injection Hk as <-. compute_done.
Defined.

(** ** The secrets of a loaded configuration *)

Lemma foldl_record_secret_lookup ps (l : list Secret) p :
  foldl record_secret ps l !! p
  = match last (filter (λ s, _path s = p) l) with
    | Some s => Some s
    | None => ps !! p
    end.
Proof.
  induction l as [|s l IH] using rev_ind; [done|].
  rewrite foldl_app, filter_app. cbn [foldl]. unfold record_secret at 1.
  destruct (decide (_path s = p)) as [<-|Hne].
  - rewrite lookup_insert_eq, filter_cons_True by done.
    by rewrite filter_nil, last_snoc.
  - rewrite lookup_insert_ne, filter_cons_False by done.
    by rewrite filter_nil, app_nil_r.
Qed.

(** X10: in a loaded configuration [lookup_path] returns the secret that
    was recorded last for the path, so a later entry of the tree with the
    same path replaces an earlier one, and for a path no secret was
    recorded for it raises [SecretError] with the text
    [secret path is not configured]. *)
Theorem lookup_path_last_recorded (config_path : string) (isdir : bool)
    (cd : ConfigData) (cfg : SecretsConfig) (path : string) :
  SecretsConfig_init config_path isdir cd = Some (Ok cfg) →
  lookup_path cfg path
  = match last (filter (λ s, _path s = path) (_secrets cfg)) with
    | Some secret => Ok secret
    | None => Raise (SecretError path "secret path is not configured")
    end.
Proof.
  intros H. apply SecretsConfig_init_ok in H
    as (_ & _ & _ & _ & _ & _ & _ & _ & _ & Hps).
  unfold lookup_path. rewrite Hps, foldl_record_secret_lookup.
  by destruct (last _).
Qed.

Lemma lookup_path_last_recorded_witness :
  ∃ cfg, SecretsConfig_init "/etc/secrets" true Demo_config_data = Some (Ok cfg)
         ∧ lookup_path cfg "db.env" = Ok (Secret_init "db.env" {[ "M"; "D" ]})
         ∧ lookup_path cfg "other.env"
           = Raise (SecretError "other.env" "secret path is not configured").
Proof.
  exists Demo_config. split; [exact Demo_loaded|].
  pose proof (lookup_path_last_recorded _ _ _ _ "db.env" Demo_loaded) as H1.
  pose proof (lookup_path_last_recorded _ _ _ _ "other.env" Demo_loaded) as H2.
  split; [etrans; [exact H1|]|etrans; [exact H2|]]; compute_done.
Defined.

(** X11: the secrets of a loaded configuration are, up to their order, the
    entries of the tree that have a non-empty path and a non-empty resolved
    key set, each with the union of the sets of its own aliases, of the
    aliases of the attribute sets above it, and of [master]; and no entry of
    the tree, with or without a path, names an alias the table lacks. *)
Theorem loaded_secrets_of_tree (config_path : string) (isdir : bool)
    (cd : ConfigData) (cfg : SecretsConfig) :
  SecretsConfig_init config_path isdir cd = Some (Ok cfg) →
  ∃ root,
    cd_secrets cd = Some root
    ∧ _secrets cfg ≡ₚ omap (entry_secret (key_manager cfg)) (node_entries root)
    ∧ (∀ e alias, e ∈ node_entries root → alias ∈ e.2 →
         is_Some (key_manager cfg !! alias)).
Proof.
  intros H. apply SecretsConfig_init_ok in H
    as (_ & _ & root & _ & _ & Hs & _ & Hperm & Hall & _).
  exists root. split; [done|]. split; [done|].
  intros e alias He Ha. rewrite Forall_forall in Hall.
  destruct (Hall e He) as [ks Hks].
  apply resolve_aliases_elem in Hks as (_ & Hin & _). by apply Hin.
Qed.

Lemma loaded_secrets_of_tree_witness :
  ∃ cfg, SecretsConfig_init "/etc/secrets" true Demo_config_data = Some (Ok cfg)
         ∧ _secrets cfg
           ≡ₚ omap (entry_secret (key_manager cfg)) (node_entries Demo_root).
Proof.
  exists Demo_config. split; [exact Demo_loaded|].
  destruct (loaded_secrets_of_tree _ _ _ _ Demo_loaded)
    as (root & Hroot & Hperm & _).
  injection Hroot as <-. exact Hperm.
Defined.

Lemma entry_secret_Some al e s :
  entry_secret al e = Some s →
  ∃ p, e.1 = Some p ∧ p ≠ "" ∧ _keys s ≠ ∅
       ∧ resolve_aliases al e.2 = Ok (_keys s)
       ∧ s = Secret_init p (_keys s).
Proof.
  unfold entry_secret. destruct (resolve_aliases al e.2) as [ks|] eqn:Hr; [|done].
  unfold recorded. destruct e.1 as [p|]; [|done].
  do 2 case_bool_decide; try done. cbn. intros [= <-]. by exists p.
Qed.

(** X12: every secret of a loaded configuration has a non-empty path, a
    non-empty key set and an unknown flag; its key set contains the whole
    set of the alias [master] and is contained in the set of [all]. *)
Theorem loaded_secret_has_master_keys (config_path : string) (isdir : bool)
    (cd : ConfigData) (cfg : SecretsConfig) (secret : Secret) :
  SecretsConfig_init config_path isdir cd = Some (Ok cfg) →
  secret ∈ _secrets cfg →
  _path secret ≠ "" ∧ _keys secret ≠ ∅ ∧ _encrypted secret = None
  ∧ (∃ m, lookup_alias (key_manager cfg) "master" = Ok m ∧ m ⊆ _keys secret)
  ∧ (∃ u, lookup_alias (key_manager cfg) "all" = Ok u ∧ _keys secret ⊆ u).
Proof.
  intros H Hin. apply SecretsConfig_init_ok in H
    as (_ & keys & root & _ & _ & _ & Hkm & Hperm & _ & _).
  rewrite Hperm in Hin. apply list_elem_of_omap in Hin as (e & He & Hs).
  apply entry_secret_Some in Hs as (p & Hp & Hne & Hks & Hr & Hsecret).
  apply node_entries_inherit in He as [Hmaster _].
  pose proof (resolve_aliases_elem _ _ _ Hr) as (_ & Hknown & Helem).
  rewrite Hsecret. cbn [Secret_init _path _keys _encrypted].
  split; [done|]. split; [done|]. split; [done|]. split.
  - destruct (Hknown _ Hmaster) as [m Hm]. exists m.
    unfold lookup_alias. rewrite Hm. split; [done|].
    intros x Hx. apply Helem. by exists "master", m.
  - destruct (Hknown _ Hmaster) as [m Hm].
    destruct (constructed_subset_all _ _ _ _ Hkm Hm) as (u & Hu & _).
    exists u. unfold lookup_alias. rewrite Hu. split; [done|].
    intros x (a & s & Ha & Has & Hx)%Helem.
    destruct (constructed_subset_all _ _ _ _ Hkm Has) as (u' & Hu' & Hsub).
    rewrite Hu in Hu'. injection Hu' as <-. by apply Hsub.
Qed.

Lemma loaded_secret_has_master_keys_witness :
  ∃ cfg, SecretsConfig_init "/etc/secrets" true Demo_config_data = Some (Ok cfg)
         ∧ ∀ secret, secret ∈ _secrets cfg →
             ∃ m, lookup_alias (key_manager cfg) "master" = Ok m
                  ∧ m ⊆ _keys secret.
Proof.
  exists Demo_config. split; [exact Demo_loaded|]. intros secret Hin.
  exact (proj1 (proj2 (proj2 (proj2
    (loaded_secret_has_master_keys _ _ _ _ secret Demo_loaded Hin))))).
Defined.

(** ** Exclusion patterns *)

Lemma fnmatch_literal pat name :
  literal pat = true → fnmatch_pattern pat name = bool_decide (name = pat).
Proof.
  revert name. induction pat as [|c pat IH]; intros name; [done|].
  cbn [literal fnmatch_pattern].
  intros [[Hs%negb_true_iff Hq%negb_true_iff]%andb_prop Hlit]%andb_prop.
  rewrite Hs, Hq. destruct name as [|d name].
  - by rewrite bool_decide_eq_false_2.
  - rewrite (IH _ Hlit). destruct (Ascii.eqb_spec c d) as [->|Hne]; cbn.
    + apply bool_decide_ext. split; [by intros ->|by intros [= ->]].
    + rewrite bool_decide_eq_false_2; [done|]. by intros [= <- _].
Qed.

Lemma fnmatch_star_suffix lit name :
  literal lit = true →
  fnmatch_pattern (String "*" lit) name = true ↔ ∃ pre, name = pre ++ lit.
Proof.
  intros Hlit. cbn [fnmatch_pattern]. cbn [Ascii.eqb Bool.eqb].
  induction name as [|c name IH].
  - rewrite orb_false_r, (fnmatch_literal _ _ Hlit), bool_decide_eq_true. split.
    + intros ->. by exists "".
    + intros [[|d pre] H]; [done|discriminate H].
  - rewrite orb_true_iff, (fnmatch_literal _ _ Hlit), bool_decide_eq_true, IH.
    split.
    + intros [->|[pre ->]]; [by exists ""|by exists (String c pre)].
    + intros [[|d pre] H]; [by left|]. right. exists pre. by injection H.
Qed.

Lemma fnmatch_star_any name : fnmatch_pattern "*" name = true.
Proof.
  cbn [fnmatch_pattern]. cbn [Ascii.eqb Bool.eqb].
  induction name as [|c name IH]; [done|]. by rewrite IH, orb_true_r.
Qed.

Lemma fnmatch_prefix_star lit name :
  literal lit = true →
  fnmatch_pattern (lit ++ "*") name = true ↔ ∃ suf, name = lit ++ suf.
Proof.
  revert name. induction lit as [|c lit IH]; intros name.
  - intros _. simpl String.append. rewrite fnmatch_star_any. split; [|done].
    intros _. by exists name.
  - cbn [literal].
    intros [[Hs%negb_true_iff Hq%negb_true_iff]%andb_prop Hlit]%andb_prop.
    simpl. rewrite Hs, Hq. destruct name as [|d name].
    + split; [done|]. by intros [suf H].
    + rewrite andb_true_iff, (IH _ Hlit). split.
      * intros [->%Ascii.eqb_eq [suf ->]]. by exists suf.
      * intros [suf [= <- ->]]. split; [apply Ascii.eqb_refl|by exists suf].
Qed.

(** X13: a path is excluded exactly when, written relative to the
    configuration's directory, it ends in [.nix] (at any depth), or starts
    with [.git/], or is [.git] or [.pre-commit]; a [.git] or [.pre-commit]
    below the top level is not excluded. *)
Theorem is_excluded_characterised (relpath : string → string → string)
    (self : SecretsConfig) (path : string) :
  is_excluded relpath self path = true
  ↔ (∃ pre, relpath path (dir self) = pre ++ ".nix")
    ∨ (∃ suf, relpath path (dir self) = ".git/" ++ suf)
    ∨ relpath path (dir self) = ".git"
    ∨ relpath path (dir self) = ".pre-commit".
Proof.
  unfold is_excluded, EXCLUDE_FILES, fnmatch. cbn [existsb].
  rewrite orb_false_r, !orb_true_iff.
  rewrite (fnmatch_star_suffix ".nix") by done.
  rewrite (fnmatch_prefix_star ".git/") by done.
  rewrite !fnmatch_literal by done. rewrite !bool_decide_eq_true. done.
Qed.

Lemma is_excluded_characterised_witness :
  is_excluded Demo_relpath Demo_config "/etc/secrets/hosts/web/default.nix"
  = true
  ∧ is_excluded Demo_relpath Demo_config "/etc/secrets/.git/config" = true.
Proof.
  split.
  - apply (is_excluded_characterised Demo_relpath Demo_config
             "/etc/secrets/hosts/web/default.nix").
    left. by exists "hosts/web/default".
  - apply (is_excluded_characterised Demo_relpath Demo_config
             "/etc/secrets/.git/config").
    right. left. by exists "config".
Defined.

(** ** Pruning of directory names *)

Lemma prune_from_closed_form excluded fuel i l :
  (length l - i ≤ fuel)%nat →
  prune_from fuel excluded i l
  = (take i l ++ prune_skipping excluded (drop i l))%list.
Proof.
  revert i l. induction fuel as [|fuel IH]; intros i l Hfuel.
  - cbn. rewrite drop_ge, take_ge by lia. by rewrite app_nil_r.
  - cbn [prune_from]. destruct (l !! i) as [x|] eqn:Hx.
    + pose proof (lookup_lt_Some _ _ _ Hx) as Hlt.
      rewrite (drop_S _ _ _ Hx). cbn [prune_skipping].
      destruct (excluded x).
      * rewrite IH by (rewrite length_delete by (by eexists); lia).
        rewrite delete_take_drop.
        destruct (drop (S i) l) as [|y rest] eqn:Hrest.
        -- rewrite app_nil_r, take_ge, drop_ge
             by (rewrite length_take; lia).
           by rewrite app_nil_r.
        -- assert (S i = length (take i l ++ [y])) as Hlen
             by (rewrite length_app, length_take; cbn; lia).
           rewrite (cons_middle y (take i l) rest), app_assoc.
           rewrite (take_app_length' _ _ _ Hlen), (drop_app_length' _ _ _ Hlen).
           by rewrite <-app_assoc.
      * rewrite IH by lia. rewrite (take_S_r _ _ _ Hx).
        by rewrite <-app_assoc.
    + apply lookup_ge_None in Hx. rewrite drop_ge, take_ge by lia.
      by rewrite app_nil_r.
Qed.

(** X14: the pruning loop of [all_secrets] drops an excluded directory name
    and then steps over the name that follows it: that name stays in the
    list without being examined, even when it is excluded too.  The result
    is [prune_skipping] of the list. *)
Theorem prune_dir_names_skips (relpath : string → string → string)
    (self : SecretsConfig) (dir_path : string) (dir_names : list string) :
  let excluded :=
    λ dir_name, is_excluded relpath self (os_path_join dir_path dir_name) in
  prune_dir_names relpath self dir_path dir_names
  = prune_skipping excluded dir_names
  ∧ (∀ x y rest, excluded x = true →
       prune_dir_names relpath self dir_path (x :: y :: rest)
       = y :: prune_dir_names relpath self dir_path rest).
Proof.
  intros excluded.
  assert (∀ l, prune_dir_names relpath self dir_path l
               = prune_skipping excluded l) as Hspec.
  { intros l. unfold prune_dir_names.
    rewrite prune_from_closed_form by lia. done. }
  split; [apply Hspec|]. intros x y rest Hx.
  rewrite !Hspec. cbn [prune_skipping]. by rewrite Hx.
Qed.

Lemma prune_skipping_kept excluded x rest :
  excluded x = false →
  prune_skipping excluded (x :: rest) = x :: prune_skipping excluded rest.
Proof. intros Hx. cbn [prune_skipping]. by rewrite Hx. Qed.

Lemma prune_skipping_dropped excluded x y rest :
  excluded x = true →
  prune_skipping excluded (x :: y :: rest) = y :: prune_skipping excluded rest.
Proof. intros Hx. cbn [prune_skipping]. by rewrite Hx. Qed.

Lemma no_adjacent_excluded_cons excluded x y rest :
  no_adjacent_excluded excluded (x :: y :: rest)
  = negb (excluded x && excluded y)
    && no_adjacent_excluded excluded (y :: rest).
Proof. done. Qed.

Lemma prune_skipping_bounds excluded n :
  ∀ l, (length l ≤ n)%nat →
    filter (λ x, excluded x = false) l `sublist_of` prune_skipping excluded l
    ∧ prune_skipping excluded l `sublist_of` l
    ∧ (no_adjacent_excluded excluded l = true →
       prune_skipping excluded l = filter (λ x, excluded x = false) l).
Proof.
  induction n as [|n IH]; intros l Hl.
  { destruct l; [|cbn in Hl; lia]. done. }
  destruct l as [|x [|y rest]].
  - done.
  - cbn [prune_skipping]. destruct (excluded x) eqn:Hx.
    + rewrite filter_cons_False by congruence. rewrite filter_nil.
      split; [done|]. split; [by constructor|done].
    + rewrite filter_cons_True by done. rewrite filter_nil. done.
  - rewrite no_adjacent_excluded_cons. destruct (excluded x) eqn:Hx.
    + rewrite (prune_skipping_dropped _ _ _ _ Hx).
      destruct (IH rest) as (H1 & H2 & H3); [cbn in Hl; lia|].
      rewrite filter_cons_False by congruence.
      split; [|split].
      * destruct (excluded y) eqn:Hy.
        -- rewrite filter_cons_False by congruence. by constructor.
        -- rewrite filter_cons_True by done. by constructor.
      * constructor. by constructor.
      * destruct (excluded y) eqn:Hy; [done|].
        cbn [andb negb]. intros Hadj. rewrite filter_cons_True by done.
        f_equal. apply H3. destruct rest as [|z rest]; [done|].
        rewrite no_adjacent_excluded_cons, Hy in Hadj. exact Hadj.
    + rewrite (prune_skipping_kept _ _ _ Hx).
      destruct (IH (y :: rest)) as (H1 & H2 & H3); [cbn in Hl |- *; lia|].
      rewrite filter_cons_True by done. cbn [andb negb].
      split; [by constructor|]. split; [by constructor|].
      intros Hadj. by rewrite H3.
Qed.

(** X15: the pruned list is a sublist of the directory names that keeps
    every name that is not excluded; when no two neighbouring names are both
    excluded it is exactly the list of the names that are not excluded. *)
Theorem prune_dir_names_keeps (relpath : string → string → string)
    (self : SecretsConfig) (dir_path : string) (dir_names : list string) :
  let excluded :=
    λ dir_name, is_excluded relpath self (os_path_join dir_path dir_name) in
  filter (λ x, excluded x = false) dir_names
    `sublist_of` prune_dir_names relpath self dir_path dir_names
  ∧ prune_dir_names relpath self dir_path dir_names `sublist_of` dir_names
  ∧ (no_adjacent_excluded excluded dir_names = true →
     prune_dir_names relpath self dir_path dir_names
     = filter (λ x, excluded x = false) dir_names).
Proof.
  intros excluded. unfold prune_dir_names.
  rewrite prune_from_closed_form by lia. cbn [take drop app].
  by apply (prune_skipping_bounds excluded (length dir_names)).
Qed.

Lemma prune_dir_names_keeps_witness :
  no_adjacent_excluded
    (λ dir_name, is_excluded Demo_relpath Demo_config
                   (os_path_join "/etc/secrets" dir_name))
    ["hosts"; ".git"; "users"] = true
  ∧ prune_dir_names Demo_relpath Demo_config "/etc/secrets"
      ["hosts"; ".git"; "users"]
    = ["hosts"; "users"].
Proof.
  assert (no_adjacent_excluded
            (λ dir_name, is_excluded Demo_relpath Demo_config
                           (os_path_join "/etc/secrets" dir_name))
            ["hosts"; ".git"; "users"] = true) as H by compute_done.
  split; [exact H|].
  etrans; [exact (proj2 (proj2 (prune_dir_names_keeps Demo_relpath Demo_config
                                  "/etc/secrets" ["hosts"; ".git"; "users"])) H)|].
  compute_done.
Defined.

Lemma prune_dir_names_skips_witness :
  is_excluded Demo_relpath Demo_config (os_path_join "/etc/secrets" ".git")
  = true
  ∧ prune_dir_names Demo_relpath Demo_config "/etc/secrets"
      [".git"; ".pre-commit"; "hosts"]
    = [".pre-commit"; "hosts"].
Proof.
  assert (is_excluded Demo_relpath Demo_config
            (os_path_join "/etc/secrets" ".git") = true) as H by compute_done.
  split; [exact H|].
  etrans; [exact (proj2 (prune_dir_names_skips Demo_relpath Demo_config
                           "/etc/secrets" [".git"; ".pre-commit"; "hosts"])
                    ".git" ".pre-commit" ["hosts"] H)|].
  compute_done.
Defined.

(** ** The [check] command *)

Lemma encrypted_of_new_secret path w :
  (encrypted (Secret_init path ∅) w).1.1
  = match files w !! path with
    | Some f => Ok (looks_encrypted (content f))
    | None => Raise (FileNotFoundError path)
    end.
Proof.
  rewrite encrypted_unknown by done.
  destruct (files w !! path) as [f|] eqn:Hf.
  - rewrite (detect_encryption_present _ _ f) by done. unfold read.
    by rewrite classify_header_closed_form, looks_encrypted_take.
  - by rewrite detect_encryption_absent by done.
Qed.

Lemma check_loop_present paths w all_encrypted stdout :
  all_present w paths →
  check_loop paths w all_encrypted stdout
  = (Ok (all_encrypted && forallb (λ path, negb (unencrypted w path)) paths),
     (stdout ++ (not_encrypted_line
                 <$> filter (λ path, unencrypted w path = true) paths))%list).
Proof.
  intros Hall. revert all_encrypted stdout.
  induction Hall as [|path paths [f Hf] _ IH]; intros all_encrypted stdout.
  - cbn. by rewrite andb_true_r, app_nil_r.
  - cbn [check_loop forallb]. rewrite encrypted_of_new_secret, Hf.
    assert (unencrypted w path = negb (looks_encrypted (content f))) as Hu
      by (unfold unencrypted; by rewrite Hf).
    rewrite Hu. destruct (looks_encrypted (content f)); cbn [negb andb] in *.
    + rewrite filter_cons_False by congruence. apply IH.
    + rewrite filter_cons_True by done. rewrite IH. cbn [fmap list_fmap].
      by rewrite andb_false_r, <-app_assoc.
Qed.

Lemma check_loop_missing pre path post w all_encrypted stdout :
  all_present w pre →
  files w !! path = None →
  check_loop (pre ++ path :: post) w all_encrypted stdout
  = (Raise (FileNotFoundError path),
     (stdout ++ (not_encrypted_line
                 <$> filter (λ path, unencrypted w path = true) pre))%list).
Proof.
  intros Hall Hmiss. revert all_encrypted stdout.
  induction Hall as [|p pre [f Hf] _ IH]; intros all_encrypted stdout.
  - cbn [app check_loop]. rewrite encrypted_of_new_secret, Hmiss. cbn.
    by rewrite app_nil_r.
  - cbn [app check_loop]. rewrite encrypted_of_new_secret, Hf.
    assert (unencrypted w p = negb (looks_encrypted (content f))) as Hu
      by (unfold unencrypted; by rewrite Hf).
    destruct (looks_encrypted (content f)); cbn [negb] in *.
    + rewrite filter_cons_False by congruence. apply IH.
    + rewrite filter_cons_True by done. rewrite IH. cbn [fmap list_fmap].
      by rewrite <-app_assoc.
Qed.

(** X16: when every path can be opened, [check_command] prints one line
    for each path whose file does not look encrypted, in order, and returns
    2 if there is such a path; otherwise it prints
    [All secrets are encrypted] and returns 0.  Required keys and
    recipients play no part. *)
Theorem check_command_reports_unencrypted (paths : list string) (w : world) :
  all_present w paths →
  check_command paths w
  = let found := filter (λ path, unencrypted w path = true) paths in
    match found with
    | [] => (Ok 0, ["All secrets are encrypted"])
    | _ => (Ok 2, not_encrypted_line <$> found)
    end.
Proof.
  intros Hall. unfold check_command. rewrite (check_loop_present _ _ _ _ Hall).
  cbn [andb app]. induction paths as [|path paths IH]; [done|].
  apply Forall_cons in Hall as [_ Hall]. specialize (IH Hall). cbn [forallb].
  destruct (unencrypted w path) eqn:Hp; cbn [negb andb].
  - by rewrite filter_cons_True by done.
  - by rewrite filter_cons_False by congruence.
Qed.

Lemma check_command_reports_unencrypted_witness :
  all_present Demo_w3
    ["/etc/secrets/db.env"; "/etc/secrets/notes"; "/etc/secrets/web.env"]
  ∧ check_command
      ["/etc/secrets/db.env"; "/etc/secrets/notes"; "/etc/secrets/web.env"]
      Demo_w3
    = (Ok 2, [not_encrypted_line "/etc/secrets/notes";
              not_encrypted_line "/etc/secrets/web.env"]).
Proof.
  assert (all_present Demo_w3
            ["/etc/secrets/db.env"; "/etc/secrets/notes";
             "/etc/secrets/web.env"]) as H
    by (repeat constructor; compute_done).
  split; [exact H|].
  etrans; [exact (check_command_reports_unencrypted _ _ H)|]. compute_done.
Defined.

(** X17: a path that cannot be opened ends [check_command] with
    [FileNotFoundError]: the lines for the unencrypted paths before it have
    been printed, the paths after it are not looked at, and no exit code is
    returned. *)
Theorem check_command_missing_file (pre post : list string) (path : string)
    (w : world) :
  all_present w pre →
  files w !! path = None →
  check_command (pre ++ path :: post) w
  = (Raise (FileNotFoundError path),
     not_encrypted_line <$> filter (λ path, unencrypted w path = true) pre).
Proof.
  intros Hall Hmiss. unfold check_command.
  by rewrite (check_loop_missing _ _ _ _ _ _ Hall Hmiss).
Qed.

Lemma check_command_missing_file_witness :
  all_present Demo_w3 ["/etc/secrets/notes"]
  ∧ files Demo_w3 !! "/etc/secrets/gone" = None
  ∧ check_command
      ["/etc/secrets/notes"; "/etc/secrets/gone"; "/etc/secrets/web.env"]
      Demo_w3
    = (Raise (FileNotFoundError "/etc/secrets/gone"),
       [not_encrypted_line "/etc/secrets/notes"]).
Proof.
  assert (all_present Demo_w3 ["/etc/secrets/notes"]) as H
    by (repeat constructor; compute_done).
  assert (files Demo_w3 !! "/etc/secrets/gone" = None) as Hm by compute_done.
  split; [exact H|]. split; [exact Hm|].
  etrans; [exact (check_command_missing_file ["/etc/secrets/notes"]
                    ["/etc/secrets/web.env"] "/etc/secrets/gone" Demo_w3 H Hm)|].
  compute_done.
Defined.

(** ** What the methods and the commands leave alone *)

Lemma changes_only_same allowed w w' :
  files w' = files w → changes_only allowed w w'.
Proof. intros H. unfold changes_only. by rewrite H. Qed.

Lemma changes_only_trans allowed w1 w2 w3 :
  changes_only allowed w1 w2 → changes_only allowed w2 w3 →
  changes_only allowed w1 w3.
Proof.
  intros [H1 N1] [H2 N2]. split.
  - intros p Hp. by rewrite H2, H1.
  - intros p. by rewrite N2, N1.
Qed.

Lemma changes_only_weaken (allowed allowed' : string → Prop) w w' :
  (∀ p, allowed p → allowed' p) →
  changes_only allowed w w' → changes_only allowed' w w'.
Proof.
  intros Himp [H N]. split; [|exact N].
  intros p Hp. apply H. intros Ha. apply Hp, Himp, Ha.
Qed.

Lemma changes_only_installed w path f tmp rest ev out :
  files w !! path = Some f →
  changes_only (λ p, p = path) w (installed w path tmp rest ev out).
Proof.
  intros Hf. split; intros p; rewrite installed_files.
  - intros Hp. by rewrite lookup_insert_ne by done.
  - destruct (decide (p = path)) as [->|Hne].
    + rewrite lookup_insert_eq, Hf. split; by eexists.
    + by rewrite lookup_insert_ne by done.
Qed.

Section MethodFrames.

Variable gpg : GPG.

Lemma decrypt_changes_only s w :
  changes_only (λ p, p = _path s) w (decrypt gpg s w).2
  ∧ _path (decrypt gpg s w).1.2 = _path s
  ∧ _keys (decrypt gpg s w).1.2 = _keys s.
Proof.
  destruct (decrypt gpg s w) as [[[[]|e] s'] w'] eqn:E; cbn [fst snd].
  - apply decrypt_ok_inv in E as (f & tmp & rest & Hf & _ & -> & ->).
    split; [by eapply changes_only_installed|done].
  - apply decrypt_raise_inv in E as [-> Hw].
    split; [by apply changes_only_same|done].
Qed.

Lemma encrypt_changes_only s w :
  changes_only (λ p, p = _path s) w (encrypt gpg s w).2
  ∧ _path (encrypt gpg s w).1.2 = _path s
  ∧ _keys (encrypt gpg s w).1.2 = _keys s.
Proof.
  destruct (encrypted s w) as [[[b|e] s1] w1] eqn:Eflag.
  - rewrite (encrypt_after_flag gpg _ _ _ _ _ Eflag).
    apply encrypted_ok_inv in Eflag as [-> ->]. destruct b.
    + rewrite encrypt_already by done. cbn [fst snd].
      split; [by apply changes_only_same|done].
    + destruct (encrypt gpg (with_encrypted (Some false) s) w)
        as [[[[]|e] s'] w'] eqn:E; cbn [fst snd].
      * apply encrypt_plaintext_ok_inv in E
          as (f & tmp & rest & Hf & _ & -> & ->); [|done].
        split; [by eapply (changes_only_installed w (_path s))|done].
      * apply encrypt_plaintext_raise_inv in E as [-> Hw]; [|done].
        split; [by apply changes_only_same|done].
  - rewrite (encrypt_flag_raise gpg _ _ _ _ _ Eflag). cbn [fst snd].
    split; [by apply changes_only_same|done].
Qed.

Lemma update_keys_changes_only s w :
  changes_only (λ p, p = _path s) w (update_keys gpg s w).2
  ∧ _path (update_keys gpg s w).1.2 = _path s
  ∧ _keys (update_keys gpg s w).1.2 = _keys s.
Proof.
  destruct (encrypted s w) as [[[enc|e] s1] w1] eqn:Eflag.
  - rewrite (update_keys_after_flag gpg _ _ _ _ _ Eflag).
    apply encrypted_ok_inv in Eflag as [-> ->].
    rewrite (update_keys_known gpg _ _ enc) by done.
    set (s1 := with_encrypted (Some enc) s).
    destruct (if enc then current_recipients gpg w (_path s1) else Ok ∅)
      as [current_keys|e]; [|split; [by apply changes_only_same|done]].
    case_bool_decide; [|split; [by apply changes_only_same|done]].
    destruct enc; [|apply (encrypt_changes_only s1 w)].
    pose proof (decrypt_changes_only s1 w) as (Hd & Hp & Hk).
    destruct (decrypt gpg s1 w) as [[[[]|e] s2] w2]; cbn [fst snd] in *;
      [|done].
    pose proof (encrypt_changes_only s2 w2) as (He & Hp' & Hk').
    rewrite Hp in He. split; [by eapply changes_only_trans|].
    split; [exact (eq_trans Hp' Hp)|exact (eq_trans Hk' Hk)].
  - rewrite (update_keys_flag_raise gpg _ _ _ _ _ Eflag). cbn [fst snd].
    split; [by apply changes_only_same|done].
Qed.

End MethodFrames.

(** X18: whatever the engine answers and however they end, [update_keys],
    [encrypt] and [decrypt] leave every file other than the secret's own as
    it was, create no file that outlives the call and remove none; the
    path and the required keys of the object stay as they were. *)
Theorem secret_methods_change_only_own_file (gpg : GPG) (s : Secret)
    (w : world) :
  Forall (λ method : M unit,
            changes_only (λ p, p = _path s) w (method s w).2
            ∧ _path (method s w).1.2 = _path s
            ∧ _keys (method s w).1.2 = _keys s)
    [update_keys gpg; encrypt gpg; decrypt gpg].
Proof.
  repeat constructor;
    first [apply update_keys_changes_only | apply encrypt_changes_only
          | apply decrypt_changes_only].
Qed.

(** ** The [decrypt] command *)

(** X19: [decrypt_command] on distinct paths decrypts them in order and
    stops at the first one that fails, with no rollback.  The paths before
    it ([decrypted]) hold the engine's plaintext with mode
    [0o666 & ~umask], every other file is as it was, and no file appeared
    or went away.  It returns 0 when all paths were decrypted.  Otherwise
    the command on [decrypted] alone returns 0, [decrypt] raises on the next
    path in the world so reached, still holding the file it held at the
    start, for the reason [decrypt_failure] gives, and the command ends
    there with that error.  So when every path holds a file the engine
    decrypts, the command returns 0 unless a temporary file cannot be
    made. *)
Theorem decrypt_command_stops_at_first_failure (gpg : GPG)
    (paths : list string) (w : world) (r : result Z) (w' : world) :
  NoDup paths →
  decrypt_command gpg paths w = (r, w') →
  (∃ decrypted,
     changes_only (λ p, p ∈ decrypted) w w'
     ∧ (∀ p, p ∈ decrypted →
          ∃ f, files w !! p = Some f
               ∧ ok (decrypt_file gpg (content f)) = true
               ∧ files w' !! p = Some (decrypted_file gpg w f))
     ∧ (r = Ok 0 ∧ decrypted = paths
        ∨ ∃ e path rest w1,
            r = Raise e
            ∧ paths = (decrypted ++ path :: rest)%list
            ∧ decrypt_command gpg decrypted w = (Ok 0, w1)
            ∧ (decrypt gpg (Secret_init path ∅) w1).1.1 = Raise e
            ∧ (decrypt gpg (Secret_init path ∅) w1).2 = w'
            ∧ files w1 !! path = files w !! path
            ∧ decrypt_failure gpg w1 path (files w !! path) e))
  ∧ ((∀ p, p ∈ paths →
        ∃ f, files w !! p = Some f
             ∧ ok (decrypt_file gpg (content f)) = true) →
     r = Ok 0 ∨ r = Raise FileExistsError).
Proof.
  intros Hnd Hrun.
  assert (∃ decrypted,
     changes_only (λ p, p ∈ decrypted) w w'
     ∧ (∀ p, p ∈ decrypted →
          ∃ f, files w !! p = Some f
               ∧ ok (decrypt_file gpg (content f)) = true
               ∧ files w' !! p = Some (decrypted_file gpg w f))
     ∧ (r = Ok 0 ∧ decrypted = paths
        ∨ ∃ e path rest w1,
            r = Raise e
            ∧ paths = (decrypted ++ path :: rest)%list
            ∧ decrypt_command gpg decrypted w = (Ok 0, w1)
            ∧ (decrypt gpg (Secret_init path ∅) w1).1.1 = Raise e
            ∧ (decrypt gpg (Secret_init path ∅) w1).2 = w'
            ∧ files w1 !! path = files w !! path
            ∧ decrypt_failure gpg w1 path (files w !! path) e)) as Hmain.
  { revert w Hrun.
    induction Hnd as [|path paths Hnotin Hnd IH]; intros w.
    { intros [= <- <-]. exists []. split; [by apply changes_only_same|].
      split; [by intros p Hp%elem_of_nil|by left]. }
    cbn [decrypt_command].
    destruct (files w !! path) as [f|] eqn:Hf.
    2: { rewrite decrypt_absent by done. intros [= <- <-]. exists [].
         split; [by apply changes_only_same|].
         split; [by intros p Hp%elem_of_nil|].
         right. exists (FileNotFoundError path), path, paths, w.
         rewrite decrypt_absent by done. unfold decrypt_failure.
         rewrite Hf. by repeat split. }
    destruct (mkstemp_from (files w) (os_path_split path).1
                (os_path_split path).2 (temp_names w))
      as [[tmp rest]|] eqn:Ht.
    2: { rewrite (decrypt_no_temp gpg (Secret_init path ∅) w f) by done.
         intros [= <- <-]. exists [].
         split; [by apply changes_only_same|].
         split; [by intros p Hp%elem_of_nil|].
         right. exists FileExistsError, path, paths, w.
         rewrite (decrypt_no_temp gpg (Secret_init path ∅) w f) by done.
         unfold decrypt_failure. rewrite Hf, Ht. by repeat split. }
    rewrite (decrypt_present gpg (Secret_init path ∅) w f tmp rest Hf Ht).
    cbn [_path Secret_init].
    destruct (ok (decrypt_file gpg (content f))) eqn:Hok.
    2: { intros [= <- <-]. exists [].
         split; [by apply changes_only_same|].
         split; [by intros p Hp%elem_of_nil|].
         right. eexists _, path, paths, w.
         rewrite (decrypt_present gpg (Secret_init path ∅) w f tmp rest Hf Ht).
         cbn [_path Secret_init]. rewrite Hok. unfold decrypt_failure.
         rewrite Hf, Ht. by repeat split. }
    set (w1 := installed w path tmp rest (DecryptFile tmp)
                 (output (decrypt_file gpg (content f)))).
    intros Hrun.
    destruct (IH _ Hrun) as (decrypted & [Hsame Hnames] & Hdone & Hr).
    assert (path ∉ decrypted) as Hfresh.
    { intros Hin. apply Hnotin.
      destruct Hr as [[_ ->]|(e & q & post & w2 & _ & -> & _)]; [done|].
      apply elem_of_app. by left. }
    assert (decrypt_command gpg (path :: decrypted) w
            = decrypt_command gpg decrypted w1) as Hstep.
    { cbn [decrypt_command].
      rewrite (decrypt_present gpg (Secret_init path ∅) w f tmp rest Hf Ht).
      cbn [_path Secret_init]. by rewrite Hok. }
    exists (path :: decrypted). split; [|split].
    - split.
      + intros p Hp. rewrite not_elem_of_cons in Hp. destruct Hp as [Hne Hp].
        rewrite (Hsame _ Hp). unfold w1. rewrite installed_files.
        by rewrite lookup_insert_ne by done.
      + intros p. rewrite Hnames. unfold w1. rewrite installed_files.
        destruct (decide (p = path)) as [->|Hne].
        * rewrite lookup_insert_eq, Hf. split; by eexists.
        * by rewrite lookup_insert_ne by done.
    - intros p [->|Hp]%elem_of_cons.
      + exists f. split; [done|]. split; [done|].
        rewrite (Hsame _ Hfresh). unfold w1. rewrite installed_files.
        by rewrite lookup_insert_eq.
      + destruct (Hdone _ Hp) as (f' & Hf' & Hok' & Hout).
        assert (p ≠ path) as Hne by (by intros ->).
        unfold w1 in Hf'.
        rewrite installed_files, lookup_insert_ne in Hf' by done.
        exists f'. by repeat split.
    - destruct Hr as [[-> ->]|(e & q & post & w2 & -> & -> & Hpre & He & Hw
                               & Hq & Hcause)]; [by left|].
      right. exists e, q, post, w2.
      assert (q ≠ path) as Hne.
      { intros ->. apply Hnotin. apply elem_of_app. right. by left. }
      assert (files w1 !! q = files w !! q) as Hq1.
      { unfold w1. rewrite installed_files.
        by rewrite lookup_insert_ne by done. }
      rewrite Hq1 in Hq, Hcause. rewrite Hstep. by repeat split. }
  split; [exact Hmain|]. intros Hall.
  destruct Hmain as (decrypted & _ & _ & [[-> _]|Hr]); [by left|].
  destruct Hr as (e & q & post & w2 & -> & -> & _ & _ & _ & _ & Hcause).
  right. destruct (Hall q) as (f & Hf & Hok).
  { apply elem_of_app. right. by left. }
  unfold decrypt_failure in Hcause. rewrite Hf in Hcause.
  destruct (mkstemp_from _ _ _ _); [|by subst].
  destruct Hcause as [Hno _]. congruence.
Qed.

Lemma decrypt_command_stops_at_first_failure_witness :
  let paths :=
    ["/etc/secrets/db.env"; "/etc/secrets/notes"; "/etc/secrets/web.env"] in
  let run := decrypt_command Demo.gpg paths Demo_w3 in
  NoDup paths
  ∧ run.1 = Raise (SecretError "/etc/secrets/notes" "decryption failed")
  ∧ ∃ decrypted,
      changes_only (λ p, p ∈ decrypted) Demo_w3 run.2
      ∧ (∀ p, p ∈ decrypted →
           ∃ f, files Demo_w3 !! p = Some f
                ∧ ok (decrypt_file Demo.gpg (content f)) = true
                ∧ files run.2 !! p = Some (decrypted_file Demo.gpg Demo_w3 f))
      ∧ (run.1 = Ok 0 ∧ decrypted = paths
         ∨ ∃ e path rest w1,
             run.1 = Raise e
             ∧ paths = (decrypted ++ path :: rest)%list
             ∧ decrypt_command Demo.gpg decrypted Demo_w3 = (Ok 0, w1)
             ∧ (decrypt Demo.gpg (Secret_init path ∅) w1).1.1 = Raise e
             ∧ (decrypt Demo.gpg (Secret_init path ∅) w1).2 = run.2
             ∧ files w1 !! path = files Demo_w3 !! path
             ∧ decrypt_failure Demo.gpg w1 path (files Demo_w3 !! path) e).
Proof.
  intros paths run.
  assert (NoDup paths) as Hnd by compute_done.
  split; [exact Hnd|]. split; [compute_done|].
  exact (proj1 (decrypt_command_stops_at_first_failure Demo.gpg paths Demo_w3
                  run.1 run.2 Hnd (surjective_pairing run))).
Defined.

(** ** The [encrypt] command *)

Lemma same_secrets_refl config : same_secrets config config.
Proof. done. Qed.

Lemma same_secrets_trans c1 c2 c3 :
  same_secrets c1 c2 → same_secrets c2 c3 → same_secrets c1 c3.
Proof.
  intros (H1 & H2 & H3) (H1' & H2' & H3').
  split; [congruence|]. split; congruence.
Qed.

Lemma same_secrets_lookup config config' k :
  same_secrets config config' →
  identity_of <$> _path_secrets config' !! k
  = identity_of <$> _path_secrets config !! k.
Proof. intros (_ & _ & H). by rewrite <-!lookup_fmap, H. Qed.

Lemma with_secret_same config k s s' :
  _path_secrets config !! k = Some s →
  identity_of s' = identity_of s →
  same_secrets config (with_secret k s' config).
Proof.
  intros Hk Hid. split; [done|]. split; [done|]. cbn [with_secret _path_secrets].
  rewrite fmap_insert, Hid. apply insert_id. by rewrite lookup_fmap, Hk.
Qed.

Lemma is_excluded_same relpath config config' path :
  dir config' = dir config →
  is_excluded relpath config' path = is_excluded relpath config path.
Proof. intros H. unfold is_excluded. by rewrite H. Qed.

Section CommandFacts.

Variable gpg : GPG.
Variable relpath : string → string → string.
Variable isdir : string → bool.
Variable walk : string → list (string * list string).

Lemma encrypt_path_unconfigured path config w :
  _path_secrets config !! relpath path (dir config) = None →
  encrypt_path gpg relpath path config w
  = (Raise (SecretError (relpath path (dir config))
              "secret path is not configured"), config, w).
Proof. intros H. unfold encrypt_path, lookup_path. by rewrite H. Qed.

Lemma encrypt_path_configured path config w s :
  _path_secrets config !! relpath path (dir config) = Some s →
  encrypt_path gpg relpath path config w
  = ((update_keys gpg s w).1.1,
     with_secret (relpath path (dir config)) (update_keys gpg s w).1.2 config,
     (update_keys gpg s w).2).
Proof.
  intros H. unfold encrypt_path, lookup_path. rewrite H.
  by destruct (update_keys gpg s w) as [[r s'] w'].
Qed.

Lemma touched_same config config' attempted p :
  same_secrets config config' →
  touched relpath config' attempted p → touched relpath config attempted p.
Proof.
  intros Hsame (path & secret & Hin & Hl & Hp).
  pose proof Hsame as (Hdir & _ & _). rewrite Hdir in Hl.
  pose proof (same_secrets_lookup _ _ (relpath path (dir config)) Hsame) as Hk.
  unfold lookup_path in Hl.
  destruct (_path_secrets config' !! relpath path (dir config))
    as [s'|] eqn:E'; [|done].
  injection Hl as ->.
  destruct (_path_secrets config !! relpath path (dir config))
    as [s|] eqn:E; [|done].
  injection Hk as Hpath _. exists path, s. unfold lookup_path.
  rewrite E. split; [done|]. split; [done|]. congruence.
Qed.

(** One call of [encrypt_path]. *)
Lemma encrypt_path_outcome path config w :
  let run := encrypt_path gpg relpath path config w in
  same_secrets config run.1.2
  ∧ changes_only (touched relpath config [path]) w run.2
  ∧ (run.1.1 = Ok () →
     is_Some (_path_secrets config !! relpath path (dir config))).
Proof.
  destruct (_path_secrets config !! relpath path (dir config)) as [s|] eqn:Hk.
  - rewrite (encrypt_path_configured _ _ _ _ Hk). cbn [fst snd].
    pose proof (update_keys_changes_only gpg s w) as (Hw & Hp & Hkeys).
    split; [|split; [|by eexists]].
    + apply (with_secret_same _ _ s); [done|]. unfold identity_of. congruence.
    + eapply changes_only_weaken; [|exact Hw]. intros p ->.
      exists path, s. split; [apply list_elem_of_singleton; done|].
      split; [|done]. unfold lookup_path. by rewrite Hk.
  - rewrite (encrypt_path_unconfigured _ _ _ Hk). cbn [fst snd].
    split; [done|]. split; [by apply changes_only_same|done].
Qed.

(** A row of calls of [encrypt_path]. *)
Lemma encrypt_paths_outcome paths config w :
  let run := encrypt_paths gpg relpath paths config w in
  same_secrets config run.1.2
  ∧ (∃ attempted rest,
       paths = (attempted ++ rest)%list
       ∧ changes_only (touched relpath config attempted) w run.2
       ∧ (run.1.1 = Ok () ∧ rest = []
          ∨ ∃ e finished last c1 w1,
              run.1.1 = Raise e
              ∧ attempted = (finished ++ [last])%list
              ∧ encrypt_paths gpg relpath finished config w = (Ok (), c1, w1)
              ∧ encrypt_path gpg relpath last c1 w1
                = (Raise e, run.1.2, run.2)))
  ∧ (run.1.1 = Ok () →
     ∀ path, path ∈ paths →
       is_Some (_path_secrets config !! relpath path (dir config))).
Proof.
  revert config w. induction paths as [|path paths IH]; intros config w.
  - cbn. split; [done|]. split; [|by intros _ p Hp%elem_of_nil].
    exists [], []. split; [done|]. split; [by apply changes_only_same|].
    by left.
  - cbn [encrypt_paths].
    pose proof (encrypt_path_outcome path config w) as (Hs1 & Hw1 & Hc1).
    destruct (encrypt_path gpg relpath path config w) as [[[[]|e] c1] w1] eqn:E;
      cbn [fst snd] in *.
    + destruct (IH c1 w1) as (Hs2 & (attempted & rest & -> & Hw2 & Hr) & Hc2).
      split; [by eapply same_secrets_trans|]. split.
      * exists (path :: attempted), rest. split; [done|]. split.
        -- eapply changes_only_trans.
           ++ eapply changes_only_weaken; [|exact Hw1].
              intros p (q & s & ->%list_elem_of_singleton & Hq).
              exists path, s. split; [by left|done].
           ++ eapply changes_only_weaken; [|exact Hw2].
              intros p Hp. apply (touched_same _ _ _ _ Hs1) in Hp.
              destruct Hp as (q & s & Hin & Hq). exists q, s.
              split; [by right|done].
        -- destruct Hr as [[Hok ->]|(e & finished & last & c2 & w2 & Hr & ->
                                      & Hpre & Hlast)]; [by left|].
           right. exists e, (path :: finished), last, c2, w2.
           split; [done|]. split; [done|]. split; [|done].
           cbn [encrypt_paths]. by rewrite E.
      * intros Hok p [->|Hp]%elem_of_cons; [by apply Hc1|].
        pose proof Hs1 as (Hdir & _ & _).
        specialize (Hc2 Hok p Hp). rewrite Hdir in Hc2.
        pose proof (same_secrets_lookup _ _ (relpath p (dir config)) Hs1) as Hk.
        destruct Hc2 as [s' Hs']. rewrite Hs' in Hk.
        destruct (_path_secrets config !! relpath p (dir config)); [by eexists|done].
    + split; [done|]. split; [|done].
      exists [path], paths. split; [done|]. split; [exact Hw1|].
      right. exists e, [], path, config, w. by repeat split.
Qed.

Lemma encrypt_paths_app l1 l2 config w :
  encrypt_paths gpg relpath (l1 ++ l2) config w
  = match encrypt_paths gpg relpath l1 config w with
    | (Ok _, config, w) => encrypt_paths gpg relpath l2 config w
    | (Raise e, config, w) => (Raise e, config, w)
    end.
Proof.
  revert config w. induction l1 as [|p l1 IH]; intros config w; [done|].
  cbn [app encrypt_paths].
  by destruct (encrypt_path gpg relpath p config w) as [[[[]|e] c1] w1].
Qed.

Lemma encrypt_names_paths config0 dirpath filenames config w :
  same_secrets config0 config →
  encrypt_names gpg relpath dirpath filenames config w
  = encrypt_paths gpg relpath
      (filter (λ path, is_excluded relpath config0 path = false)
         (os_path_join dirpath <$> filenames)) config w.
Proof.
  revert config w. induction filenames as [|name filenames IH];
    intros config w Hsame; [done|].
  cbn [encrypt_names fmap list_fmap].
  rewrite (is_excluded_same relpath config0 config) by apply Hsame.
  destruct (is_excluded relpath config0 (os_path_join dirpath name)) eqn:Hex.
  - rewrite filter_cons_False by congruence. by apply IH.
  - rewrite filter_cons_True by done. cbn [encrypt_paths].
    pose proof (encrypt_path_outcome (os_path_join dirpath name) config w)
      as (Hs1 & _).
    destruct (encrypt_path gpg relpath (os_path_join dirpath name) config w)
      as [[[[]|e] c1] w1]; [|done].
    apply IH. by eapply same_secrets_trans.
Qed.

Lemma encrypt_walk_paths config0 walked config w :
  same_secrets config0 config →
  encrypt_walk gpg relpath walked config w
  = encrypt_paths gpg relpath
      ('(dirpath, filenames) ← walked;
       filter (λ path, is_excluded relpath config0 path = false)
         (os_path_join dirpath <$> filenames)) config w.
Proof.
  revert config w. induction walked as [|[dirpath filenames] walked IH];
    intros config w Hsame; [done|].
  cbn [encrypt_walk mbind list_bind]. rewrite encrypt_paths_app.
  rewrite (encrypt_names_paths config0) by done.
  pose proof (encrypt_paths_outcome
                (filter (λ path, is_excluded relpath config0 path = false)
                   (os_path_join dirpath <$> filenames)) config w) as (Hs1 & _).
  destruct (encrypt_paths gpg relpath _ config w) as [[[[]|e] c1] w1]; [|done].
  apply IH. by eapply same_secrets_trans.
Qed.

Lemma encrypt_command_paths config0 config recursive files w :
  same_secrets config0 config →
  encrypt_command gpg relpath isdir walk config recursive files w
  = match encrypt_paths gpg relpath
            (encrypt_targets relpath isdir walk config0 recursive files)
            config w with
    | (Ok _, config, w) => (Ok 0, config, w)
    | (Raise e, config, w) => (Raise e, config, w)
    end.
Proof.
  revert config w. induction files as [|arg_path files IH];
    intros config w Hsame; [done|].
  cbn [encrypt_command]. unfold encrypt_targets. cbn [mbind list_bind].
  fold (encrypt_targets relpath isdir walk config0 recursive files).
  rewrite encrypt_paths_app.
  destruct (isdir arg_path && recursive).
  - rewrite (encrypt_walk_paths config0) by done.
    match goal with |- context [encrypt_paths gpg relpath ?l config w] =>
      pose proof (encrypt_paths_outcome l config w) as (Hs1 & _);
      destruct (encrypt_paths gpg relpath l config w) as [[[[]|e] c1] w1]
    end; [|done].
    apply IH. by eapply same_secrets_trans.
  - cbn [encrypt_paths].
    pose proof (encrypt_path_outcome arg_path config w) as (Hs1 & _).
    destruct (encrypt_path gpg relpath arg_path config w)
      as [[[[]|e] c1] w1]; [|done].
    apply IH. by eapply same_secrets_trans.
Qed.

End CommandFacts.

Lemma triple_eta {A B C} (x : A * B * C) : x = (x.1.1, x.1.2, x.2).
Proof. by destruct x as [[??]?]. Qed.



(** X21: [encrypt_command] hands its targets to [encrypt_path] in order,
    each call starting from the configuration and the files the one before
    left, and stops at the first call that raises, with no rollback: the
    targets split into those it got to ([attempted]) and the [rest].  When
    it returns 0 there is no rest and every call returned.  When it raises,
    the calls before the last attempted target returned, the call for that
    target raised the error, and the command ends in the state that call
    left.  The files that may have changed are those of the secrets
    configured for the attempted targets; every other file is as it was,
    and no file appeared or went away. *)
Theorem encrypt_command_changes_only_attempted (gpg : GPG)
    (relpath : string → string → string) (isdir : string → bool)
    (walk : string → list (string * list string))
    (config : SecretsConfig) (recursive : bool) (files : list string)
    (w : world) (r : result Z) (config' : SecretsConfig) (w' : world) :
  encrypt_command gpg relpath isdir walk config recursive files w
  = (r, config', w') →
  ∃ attempted rest,
    encrypt_targets relpath isdir walk config recursive files
    = (attempted ++ rest)%list
    ∧ changes_only (touched relpath config attempted) w w'
    ∧ (r = Ok 0 ∧ rest = []
       ∧ encrypt_paths gpg relpath attempted config w = (Ok (), config', w')
       ∨ ∃ e finished last c1 w1,
           r = Raise e
           ∧ attempted = (finished ++ [last])%list
           ∧ encrypt_paths gpg relpath finished config w = (Ok (), c1, w1)
           ∧ encrypt_path gpg relpath last c1 w1 = (Raise e, config', w')).
Proof.
  rewrite (encrypt_command_paths gpg relpath isdir walk config) by done.
  pose proof (encrypt_paths_outcome gpg relpath
                (encrypt_targets relpath isdir walk config recursive files)
                config w) as (_ & (attempted & rest & Htargets & Hw & Hr) & _).
  destruct (encrypt_paths gpg relpath _ config w) as [[[[]|e] c1] w1] eqn:E;
    cbn [fst snd] in *; intros [= <- <- <-]; exists attempted, rest.
  - split; [done|]. split; [done|]. left.
    destruct Hr as [[_ ->]|(e & ? & ? & ? & ? & He & _)]; [|done].
    split; [done|]. split; [done|]. rewrite app_nil_r in Htargets.
    by rewrite <-Htargets.
  - split; [done|]. split; [done|]. right.
    destruct Hr as [[He _]|(e' & finished & last & c2 & w2 & [= <-] & Hr)];
      [done|].
    by exists e, finished, last, c2, w2.
Qed.

Lemma encrypt_command_changes_only_attempted_witness :
  let files := ["/etc/secrets/secrets/db.env"; "/etc/secrets/notes"] in
  let run := encrypt_command Demo.gpg Demo_relpath Demo_isdir Demo_walk
               Demo_w0_config false files Demo.w0 in
  run.1.1 = Raise (SecretError "notes" "secret path is not configured")
  ∧ ∃ attempted rest,
      encrypt_targets Demo_relpath Demo_isdir Demo_walk Demo_w0_config false
        files = (attempted ++ rest)%list
      ∧ changes_only (touched Demo_relpath Demo_w0_config attempted)
          Demo.w0 run.2
      ∧ (run.1.1 = Ok 0 ∧ rest = []
         ∧ encrypt_paths Demo.gpg Demo_relpath attempted Demo_w0_config Demo.w0
           = (Ok (), run.1.2, run.2)
         ∨ ∃ e finished last c1 w1,
             run.1.1 = Raise e
             ∧ attempted = (finished ++ [last])%list
             ∧ encrypt_paths Demo.gpg Demo_relpath finished Demo_w0_config
                 Demo.w0 = (Ok (), c1, w1)
             ∧ encrypt_path Demo.gpg Demo_relpath last c1 w1
               = (Raise e, run.1.2, run.2)).
Proof.
  intros files run. split; [compute_done|].
  exact (encrypt_command_changes_only_attempted Demo.gpg Demo_relpath
           Demo_isdir Demo_walk Demo_w0_config false files Demo.w0
           run.1.1 run.1.2 run.2 (triple_eta run)).
Defined.
